(** * Random Color API: the colour conversions of [src/server.ts]

    A shallow embedding of [randomRGB], [rgbToHex], [rgbToHsl] and of the
    handler of [GET /api/color/random].

    JavaScript's [number] is IEEE-754 binary64.  The fractional arithmetic of
    [rgbToHsl] and [randomRGB] is therefore carried out on Rocq's primitive
    [float] (binary64, round to nearest even: the same operations).  Numbers
    that are integer valued by construction (the channels, the results of
    [Math.floor] and [Math.round]) are kept as [integral], so that their
    printing is exact. *)

From Stdlib Require Import ZArith Bool List Lia.
From Stdlib Require Import Ascii String.
From Stdlib Require Import Floats.
Import ListNotations.

Local Open Scope string_scope.
Local Open Scope Z_scope.

(** ** Integer-valued numbers *)

(** What [Math.floor] and [Math.round] return: an integer, or one of the
    three values they pass through unchanged.  The two zeros are both
    [IInt 0]: they print alike. *)
Inductive integral : Set :=
| INaN
| IInf (negative : bool)
| IInt (z : Z).

Coercion IInt : Z >-> integral.

(** The double nearest to an integer of absolute value below [2^63]; exact up
    to [2^53], hence on every channel value. *)
Definition Number_ofZ (z : Z) : float :=
  if z <? 0 then PrimFloat.opp (PrimFloat.of_uint63 (Uint63.of_Z (- z)))
  else PrimFloat.of_uint63 (Uint63.of_Z z).

Definition Number_ofIntegral (n : integral) : float :=
  match n with
  | INaN => nan
  | IInf s => if s then neg_infinity else infinity
  | IInt z => Number_ofZ z
  end.

(** ** [Number.prototype.toString(radix)] on integer-valued numbers *)

(** The digit characters [0-9a-z], as JavaScript prints them (lower case). *)
Definition digitChar (d : Z) : ascii :=
  if d <? 10 then ascii_of_nat (Z.to_nat (48 + d))
  else ascii_of_nat (Z.to_nat (87 + d)).

(** Digits of a non-negative integer, most significant first, pushed in front
    of [acc].  One digit is produced even for zero. *)
Fixpoint digitsOf (fuel : nat) (radix n : Z) (acc : string) : string :=
  let acc' := String (digitChar (n mod radix)) acc in
  match fuel with
  | O => acc'
  | S k => if n / radix =? 0 then acc' else digitsOf k radix (n / radix) acc'
  end.

(** [Z.log2 n] divisions by a radix of at least two exhaust [n]. *)
Definition natToString (radix n : Z) : string :=
  digitsOf (Z.to_nat (Z.log2 n)) radix n "".

(** Decimal output is the digit string for magnitudes below [10^21]
    (JavaScript switches to exponent notation from there on); everything
    printed by this program is far below. *)
Definition Number_toString (radix : Z) (n : integral) : string :=
  match n with
  | INaN => "NaN"
  | IInf s => if s then "-Infinity" else "Infinity"
  | IInt z => if z <? 0 then "-" ++ natToString radix (- z)
              else natToString radix z
  end.

(** ** [String.prototype.padStart] *)

(** The first [n] characters of [cur ++ fill ++ fill ++ ...]. *)
Fixpoint cycleFill (n : nat) (fill cur : string) : string :=
  match n with
  | O => ""
  | S k =>
      match cur with
      | String c rest => String c (cycleFill k fill rest)
      | EmptyString =>
          match fill with
          | String c rest => String c (cycleFill k fill rest)
          | EmptyString => ""
          end
      end
  end.

Definition padStart (targetLength : nat) (padString s : string) : string :=
  cycleFill (targetLength - String.length s) padString "" ++ s.

(** ** [rgbToHex] *)

(** [const toHex = (n) => n.toString(16).padStart(2, "0")] *)
Definition toHex (n : integral) : string :=
  padStart 2 "0" (Number_toString 16 n).

(** [return `#${toHex(r)}${toHex(g)}${toHex(b)}`] *)
Definition rgbToHex (r g b : integral) : string :=
  "#" ++ toHex r ++ toHex g ++ toHex b.

(** The [rgb] field of the response: [`rgb(${r}, ${g}, ${b})`]. *)
Definition rgbString (r g b : integral) : string :=
  "rgb(" ++ Number_toString 10 r ++ ", " ++ Number_toString 10 g ++ ", "
         ++ Number_toString 10 b ++ ")".

(** ** Reading a hex colour back

    The inverse direction, used to state what the hex string denotes: the
    pattern [^#[0-9a-f]{6}$] and [parseInt(pair, 16)] on each pair. *)

Definition isLowerHexDigit (c : ascii) : bool :=
  let n := Z.of_nat (nat_of_ascii c) in
  ((48 <=? n) && (n <=? 57) || (97 <=? n) && (n <=? 102))%Z.

Definition matchesHexColor (s : string) : bool :=
  match s with
  | String "#" rest =>
      Nat.eqb (String.length rest) 6
      && forallb isLowerHexDigit (list_ascii_of_string rest)
  | _ => false
  end.

(** The two-digit, zero-padded, lower-case base-16 numeral of [n]. *)
Definition twoDigitHex (n : Z) : string :=
  String (digitChar (n / 16)) (String (digitChar (n mod 16)) "").

Definition hexValue (c : ascii) : option Z :=
  let n := Z.of_nat (nat_of_ascii c) in
  if ((48 <=? n) && (n <=? 57))%Z then Some (n - 48)%Z
  else if ((97 <=? n) && (n <=? 102))%Z then Some (n - 87)%Z
  else if ((65 <=? n) && (n <=? 70))%Z then Some (n - 55)%Z
  else None.

(** [parseInt(s, 16)] on a string of hex digits: the digits read so far are
    kept when a foreign character is met, and no digit at all is NaN. *)
Fixpoint parseDigits16 (s : string) (acc : option Z) : option Z :=
  match s with
  | EmptyString => acc
  | String c rest =>
      match hexValue c with
      | Some d =>
          parseDigits16 rest
            (Some (match acc with Some a => 16 * a + d | None => d end)%Z)
      | None => acc
      end
  end.

Definition parseInt16 (s : string) : option Z := parseDigits16 s None.


(** ** The [Math] functions the program calls *)

Local Open Scope float_scope.

Definition signed (s : bool) (m : positive) : Z :=
  if s then Z.neg m else Z.pos m.

(** [Math.floor]: the finite double [(-1)^s * m * 2^e] is decoded and the
    floor taken exactly. *)
Definition Math_floor (x : float) : integral :=
  match Prim2SF x with
  | S754_nan => INaN
  | S754_infinity s => IInf s
  | S754_zero _ => IInt 0
  | S754_finite s m e =>
      IInt (if e <? 0 then signed s m / 2 ^ (- e) else signed s m * 2 ^ e)%Z
  end.

(** [Math.round]: the nearest integer, a tie going towards plus infinity,
    that is [floor (x + 1/2)] computed exactly. *)
Definition Math_round (x : float) : integral :=
  match Prim2SF x with
  | S754_nan => INaN
  | S754_infinity s => IInf s
  | S754_zero _ => IInt 0
  | S754_finite s m e =>
      IInt (if e <? 0 then (2 * signed s m + 2 ^ (- e)) / 2 ^ (1 - e)
            else signed s m * 2 ^ e)%Z
  end.

Definition is_pos_zero (x : float) : bool := is_zero x && negb (get_sign x).
Definition is_neg_zero (x : float) : bool := is_zero x && get_sign x.

(** [Math.max(...)]: NaN if an argument is NaN, otherwise the running
    highest value starting from minus infinity, with [+0] above [-0]. *)
Definition max_step (highest number : float) : float :=
  if is_pos_zero number && is_neg_zero highest then number
  else if highest <? number then number
  else highest.

Definition Math_max (args : list float) : float :=
  if existsb is_nan args then nan else fold_left max_step args neg_infinity.

(** [Math.min(...)], symmetrically. *)
Definition min_step (lowest number : float) : float :=
  if is_neg_zero number && is_pos_zero lowest then number
  else if number <? lowest then number
  else lowest.

Definition Math_min (args : list float) : float :=
  if existsb is_nan args then nan else fold_left min_step args infinity.

(** ** [randomRGB] and the ambient random source *)



(** [Math.floor(u * 256)] for the drawn value [u]. *)
Definition scaleChannel (u : float) : integral := Math_floor (u * 256).


(** ** [rgbToHsl] *)

(** The function body up to its [return]: the values of [h], [s] and [l]. *)
Definition hslOf (r g b : float) : float * float * float :=
  let r := r / 255 in
  let g := g / 255 in
  let b := b / 255 in
  let max := Math_max [r; g; b] in
  let min := Math_min [r; g; b] in
  let l := (max + min) / 2 in
  if negb (max =? min) then
    let d := max - min in
    let s := if 0.5 <? l then d / (2 - max - min) else d / (max + min) in
    let h :=
      if max =? r then ((g - b) / d + (if g <? b then 6 else 0)) / 6
      else if max =? g then ((b - r) / d + 2) / 6
      else ((r - g) / d + 4) / 6 in
    (h, s, l)
  else (0, 0, l).

(** The three numbers the [return] statement prints. *)
Definition hslRounded (r g b : float) : integral * integral * integral :=
  let '(h, s, l) := hslOf r g b in
  (Math_round (h * 360), Math_round (s * 100), Math_round (l * 100)).

(** [`hsl(${H}, ${S}%, ${L}%)`] *)
Definition hslString (H Sat L : integral) : string :=
  ("hsl(" ++ Number_toString 10 H ++ ", " ++ Number_toString 10 Sat ++ "%, "
          ++ Number_toString 10 L ++ "%)")%string.

Definition rgbToHsl (r g b : integral) : string :=
  let '(H, Sat, L) :=
    hslRounded (Number_ofIntegral r) (Number_ofIntegral g)
               (Number_ofIntegral b) in
  hslString H Sat L.

(** ** [rgbToHsl] with every division guarded

    The same body in the error monad [option]: a division whose divisor
    compares equal to zero (either zero) fails instead of producing an
    infinity or a NaN. *)

Definition guardedDiv (x y : float) : option float :=
  if y =? 0 then None else Some (x / y).

Definition bindOpt {A B : Type} (c : option A) (k : A -> option B) : option B :=
  match c with
  | Some a => k a
  | None => None
  end.

Notation "x <- c ;; k" := (bindOpt c (fun x => k))
  (at level 61, c at next level, right associativity).

Definition hslOf_guarded (r g b : float) : option (float * float * float) :=
  r <- guardedDiv r 255 ;;
  g <- guardedDiv g 255 ;;
  b <- guardedDiv b 255 ;;
  let max := Math_max [r; g; b] in
  let min := Math_min [r; g; b] in
  l <- guardedDiv (max + min) 2 ;;
  if negb (max =? min) then
    let d := max - min in
    s <- (if 0.5 <? l then guardedDiv d (2 - max - min)
          else guardedDiv d (max + min)) ;;
    h <- (if max =? r then
            q <- guardedDiv (g - b) d ;;
            guardedDiv (q + (if g <? b then 6 else 0)) 6
          else if max =? g then
            q <- guardedDiv (b - r) d ;;
            guardedDiv (q + 2) 6
          else
            q <- guardedDiv (r - g) d ;;
            guardedDiv (q + 4) 6) ;;
    Some (h, s, l)
  else Some (0, 0, l).

(** ** The reference algorithm of the specification, section 4.3

    Written from the specification's seven steps, in the same arithmetic:
    the achromatic case first, saturation chosen by [L <= 0.5], the hue
    branches in the order [max == r'], [max == g'], [max == b']. *)

Definition referenceHsl (r g b : float) : integral * integral * integral :=
  let r' := r / 255 in
  let g' := g / 255 in
  let b' := b / 255 in
  let max := Math_max [r'; g'; b'] in
  let min := Math_min [r'; g'; b'] in
  let L := (max + min) / 2 in
  let '(Hue, Saturation) :=
    if max =? min then (0, 0)
    else
      let d := max - min in
      let Saturation :=
        if L <=? 0.5 then d / (max + min) else d / (2 - max - min) in
      let turn :=
        if max =? r' then ((g' - b') / d + (if g' <? b' then 6 else 0)) / 6
        else if max =? g' then ((b' - r') / d + 2) / 6
        else ((r' - g') / d + 4) / 6 in
      (turn, Saturation) in
  (Math_round (Hue * 360), Math_round (Saturation * 100), Math_round (L * 100)).

(** ** The handler of [GET /api/color/random] *)

Record ColorResponse : Set := mkResponse {
  hex : string;
  rgb : string;
  hsl : string
}.

(** The JSON object built from one triple of channels. *)
Definition colorResponse (r g b : integral) : ColorResponse :=
  mkResponse (rgbToHex r g b) (rgbString r g b) (rgbToHsl r g b).


(** ** Decidable checks over the channel values

    The doubles reachable from channel values are finitely many, so facts
    about them are settled by running the arithmetic of [rgbToHsl] on them.
    The checks only compare doubles.  They are split by what a quantity
    depends on: a single normalised channel, the pair of the largest and the
    smallest channel (lightness and saturation), the whole triple (hue). *)

Definition inChannel (z : Z) : Prop := (0 <= z <= 255)%Z.

Definition channelValues : list Z := map Z.of_nat (seq 0 256).

(** [r /= 255] on a channel value. *)
Definition normalise (z : Z) : float := Number_ofZ z / 255.

(** The 256 normalised channels, computed once. *)
Definition unitTable : list float :=
  Eval vm_compute in map normalise channelValues.

(** [0 <= x < top], with [top] chosen as [n + 1/2] so that [Math.round]
    stays within [0..n]. *)
Definition roundsBelow (top x : float) : bool := (0 <=? x) && (x <? top).

Definition inUnit (x : float) : bool := (0 <=? x) && (x <=? 1).

(** What holds of the values [hslOf] returns. *)
Definition resultFacts (r g b : float) : bool :=
  let '(h, s, l) := hslOf r g b in
  roundsBelow 360.5 (h * 360) && roundsBelow 100.5 (s * 100)
  && roundsBelow 100.5 (l * 100) && inUnit s && inUnit l.

(** What holds of the intermediate values: [l] compares with [0.5] (it is
    not a NaN), and inside the [max !== min] branch every divisor that is
    evaluated is positive. *)
Definition divisorFacts (r g b : float) : bool :=
  let r := r / 255 in
  let g := g / 255 in
  let b := b / 255 in
  let max := Math_max [r; g; b] in
  let min := Math_min [r; g; b] in
  let l := (max + min) / 2 in
  Bool.eqb (0.5 <? l) (negb (l <=? 0.5))
  && (if negb (max =? min) then
        let d := max - min in
        (0 <? d) && negb (d =? 0)
        && (if 0.5 <? l
            then (0 <? 2 - max - min) && negb (2 - max - min =? 0)
            else (0 <? max + min) && negb (max + min =? 0))
      else true).

(** A normalised channel is an ordinary number: no NaN, no negative zero,
    strictly between the infinities. *)
Definition unitFacts (x : float) : bool :=
  negb (is_nan x) && negb (is_neg_zero x)
  && (neg_infinity <? x) && (x <? infinity).

(** Normalising preserves the order of channel values. *)
Definition orderFacts (p q : Z) : bool :=
  Bool.eqb (normalise p <? normalise q) (p <? q)%Z
  && Bool.eqb (normalise p =? normalise q) (p =? q)%Z.

Definition lightnessFacts (max min : float) : bool :=
  let l := (max + min) / 2 in
  roundsBelow 100.5 (l * 100) && inUnit l
  && Bool.eqb (0.5 <? l) (negb (l <=? 0.5)).

Definition saturationFacts (max min : float) : bool :=
  let l := (max + min) / 2 in
  let d := max - min in
  let s := if 0.5 <? l then d / (2 - max - min) else d / (max + min) in
  (0 <? d) && negb (d =? 0)
  && (if 0.5 <? l
      then (0 <? 2 - max - min) && negb (2 - max - min =? 0)
      else (0 <? max + min) && negb (max + min =? 0))
  && roundsBelow 100.5 (s * 100) && inUnit s.

(** Lightness for [min <= max], saturation for [min < max]. *)
Definition pairFacts (hi lo : Z) : bool :=
  if (lo <=? hi)%Z then
    lightnessFacts (normalise hi) (normalise lo)
    && (if (lo <? hi)%Z then saturationFacts (normalise hi) (normalise lo)
        else true)
  else true.

(** Largest and smallest of three ordinary doubles, by comparisons alone. *)
Definition max3 (x y z : float) : float :=
  let m := if x <? y then y else x in if m <? z then z else m.

Definition min3 (x y z : float) : float :=
  let m := if y <? x then y else x in if z <? m then z else m.

(** The three-way hue branch of [rgbToHsl]. *)
Definition hueBranch (r g b max d : float) : float :=
  if max =? r then ((g - b) / d + (if g <? b then 6 else 0)) / 6
  else if max =? g then ((b - r) / d + 2) / 6
  else ((r - g) / d + 4) / 6.

Definition hueFacts (r g b : float) : bool :=
  let max := max3 r g b in
  let min := min3 r g b in
  if max =? min then true
  else roundsBelow 360.5 (hueBranch r g b max (max - min) * 360).

Definition forallb3 {A : Type} (l : list A) (P : A -> A -> A -> bool) : bool :=
  forallb (fun x => forallb (fun y => forallb (fun z => P x y z) l) l) l.

(** ** Doubles as integers

    Every finite double is an integer multiple of [2^-1074]; [SFscaled]
    is that multiple, which turns comparisons of doubles into comparisons
    of integers. *)

Definition SFscaled (x : spec_float) : Z :=
  match x with
  | S754_finite s m e => (signed s m * 2 ^ (e + 1074))%Z
  | _ => 0%Z
  end.

(** ** Statements about the printed triple *)

Definition maxChannel (r g b : Z) : Z := Z.max (Z.max r g) b.
Definition minChannel (r g b : Z) : Z := Z.min (Z.min r g) b.

(** The numbers [rgbToHsl] prints for a triple of channel values. *)
Definition printedHsl (r g b : Z) : integral * integral * integral :=
  hslRounded (Number_ofZ r) (Number_ofZ g) (Number_ofZ b).

(** The hue stays strictly below a full turn, for every channel triple. *)
Definition hueNeverFullTurn : Prop :=
  forall r g b : Z, inChannel r -> inChannel g -> inChannel b ->
  exists H : Z, fst (fst (printedHsl r g b)) = IInt H /\ (0 <= H < 360)%Z.

(** Lightness in percent as the exact rounding of [100 v / 255]. *)
Definition grayLightness (v : Z) : Z := ((200 * v + 255) / 510)%Z.

Definition grayFacts (v : Z) : bool :=
  match printedHsl v v v, Math_round (Number_ofZ v / 255 * 100)%float with
  | (IInt 0, IInt 0, IInt L), IInt L' =>
      ((L =? L') && (L' =? grayLightness v))%Z
  | _, _ => false
  end.

(** ** Mantissas with trailing zero bits

    Used to follow a multiplication by a power of two through the rounding
    of [SpecFloat]. *)

(** [m] followed by [k] zero bits. *)
Definition shifted (m : positive) (k : nat) : positive := Nat.iter k xO m.

(** A mantissa with nothing shifted out of it yet. *)
Definition exactRecord (m : positive) : shr_record :=
  Build_shr_record (Z.pos m) false false.

(** ** Further checks: exact percentages, hue sectors, draw intervals *)

(** [k / 2] as a double: the half-integers that separate what
    [Math.round] sends to neighbouring integers. *)
Definition halfOf (k : Z) : float := Number_ofZ k / 2.

(** [n - 1/2 <= x < n + 1/2] for [n >= 1], [0 <= x < 1/2] for [n = 0]:
    the doubles that [Math.round] sends to [n]. *)
Definition roundsTo (n : Z) (x : float) : bool :=
  ((if (n =? 0)%Z then 0 else halfOf (2 * n - 1)) <=? x)
  && (x <? halfOf (2 * n + 1)).

(** The half-integer [k / 2], decoded: mantissa [k * 2^(j-1)] at exponent
    [-j]. *)
Definition halfFacts (k : Z) : bool :=
  match Prim2SF (halfOf k) with
  | S754_finite false m (Zneg j) => (Z.pos m =? k * 2 ^ (Z.pos j - 1))%Z
  | _ => false
  end.

Definition halfValues : list Z := map Z.of_nat (seq 1 203).

(** Lightness in percent, exactly: [100 (hi + lo) / 510] rounded half up. *)
Definition exactLightness (hi lo : Z) : Z :=
  ((100 * (hi + lo) + 255) / 510)%Z.

(** The divisor of the saturation: [max + min] when [l <= 0.5], that is
    when [hi + lo <= 255], and [2 - max - min] otherwise, in units of
    [1/255]. *)
Definition satDivisor (hi lo : Z) : Z :=
  (if hi + lo <=? 255 then hi + lo else 510 - hi - lo)%Z.

(** Saturation in percent, exactly: [100 d / divisor] rounded half up. *)
Definition exactSaturation (hi lo : Z) : Z :=
  ((200 * (hi - lo) + satDivisor hi lo) / (2 * satDivisor hi lo))%Z.

(** The exact saturation percentage lies half-way between two integers. *)
Definition saturationTie (hi lo : Z) : bool :=
  ((200 * (hi - lo)) mod (2 * satDivisor hi lo) =? satDivisor hi lo)%Z.

(** Lightness and saturation as [rgbToHsl] computes them from the largest
    and the smallest normalised channel. *)
Definition lightnessOf (max min : float) : float := (max + min) / 2.

Definition saturationOf (max min : float) : float :=
  let l := (max + min) / 2 in
  let d := max - min in
  if 0.5 <? l then d / (2 - max - min) else d / (max + min).

Definition exactFacts (hi lo : Z) : bool :=
  if (lo <=? hi)%Z then
    let max := normalise hi in
    let min := normalise lo in
    roundsTo (exactLightness hi lo) (lightnessOf max min * 100)
    && (if (lo <? hi)%Z then
          let s := saturationOf max min * 100 in
          (roundsTo (exactSaturation hi lo) s
           || saturationTie hi lo && (1 <=? exactSaturation hi lo)%Z
              && roundsTo (exactSaturation hi lo - 1) s)
          && (if (lo =? 0)%Z || (hi =? 255)%Z then roundsTo 100 s else true)
        else true)
  else true.

Definition between (lo top x : float) : bool := (lo <=? x) && (x <? top).

(** The hue in degrees, before rounding, lies in the sector of the
    dominant channel. *)
Definition sectorFacts (r g b : float) : bool :=
  let max := max3 r g b in
  let min := min3 r g b in
  if max =? min then true
  else
    let h := hueBranch r g b max (max - min) * 360 in
    if max =? r then
      if g <? b then between 299.5 360.5 h else roundsBelow 60.5 h
    else if max =? g then between 59.5 180.5 h
    else between 179.5 300.5 h.

(** The integral number [i] is the integer [n]. *)
Definition isInt (n : Z) (i : integral) : bool :=
  match i with
  | IInt z => (z =? n)%Z
  | _ => false
  end.

(** The three printed numbers of a triple of channel values, one by one. *)
Definition hueOf (r g b : Z) : integral := fst (fst (printedHsl r g b)).
Definition satOf (r g b : Z) : integral := snd (fst (printedHsl r g b)).
Definition lightOf (r g b : Z) : integral := snd (printedHsl r g b).

(** The hues of the six pure colours at brightness [v]. *)
Definition pureHueFacts (v : Z) : bool :=
  isInt 0 (hueOf v 0 0) && isInt 60 (hueOf v v 0)
  && isInt 120 (hueOf 0 v 0) && isInt 180 (hueOf 0 v v)
  && isInt 240 (hueOf 0 0 v) && isInt 300 (hueOf v 0 v).

(** [k / 256]: the ends of the intervals of draws that give one channel. *)
Definition binEdge (k : Z) : float := Number_ofZ k / 256.

Definition binEdgeFacts (k : Z) : bool :=
  match Prim2SF (binEdge k) with
  | S754_zero false => (k =? 0)%Z
  | S754_finite false m (Zneg j) => (Z.pos m =? k * 2 ^ (Z.pos j - 8))%Z
  | _ => false
  end.

Definition binEdges : list Z := map Z.of_nat (seq 0 257).

Definition brightnessValues : list Z := map Z.of_nat (seq 1 255).

(** Non-negative finite doubles: a zero or a positive finite number. *)
Definition SFnonneg (x : spec_float) : bool :=
  match x with
  | S754_zero _ => true
  | S754_finite s _ _ => negb s
  | _ => false
  end.

(** * Proofs *)

Local Close Scope float_scope.

(** Channel bounds are linear arithmetic. *)
Ltac channel := unfold inChannel, maxChannel, minChannel in *; lia.

(** ** Exhaustive checks *)

Lemma channelValues_In (z : Z) : inChannel z -> In z channelValues.
Proof.
  unfold inChannel, channelValues. intros Hz.
  apply in_map_iff. exists (Z.to_nat z). split; [lia|].
  apply in_seq. lia.
Qed.

Lemma unitTable_In (z : Z) : inChannel z -> In (normalise z) unitTable.
Proof.
  intros Hz.
  change unitTable with (map normalise channelValues).
  apply in_map, channelValues_In, Hz.
Qed.

Lemma unitFacts_all : forallb (fun z => unitFacts (normalise z)) channelValues = true.
Proof. vm_compute. reflexivity. Qed.

Lemma orderFacts_all :
  forallb (fun p => forallb (orderFacts p) channelValues) channelValues = true.
Proof. vm_compute. reflexivity. Qed.

Lemma pairFacts_all :
  forallb (fun p => forallb (pairFacts p) channelValues) channelValues = true.
Proof. vm_compute. reflexivity. Qed.

Lemma forallb3_spec {A : Type} (l : list A) (P : A -> A -> A -> bool) :
  forallb3 l P = true ->
  forall x y z, In x l -> In y l -> In z l -> P x y z = true.
Proof.
  unfold forallb3. intros Hall x y z Hx Hy Hz.
  pose proof (proj1 (forallb_forall _ _) Hall x Hx) as H1. cbv beta in H1.
  pose proof (proj1 (forallb_forall _ _) H1 y Hy) as H2. cbv beta in H2.
  exact (proj1 (forallb_forall _ _) H2 z Hz).
Qed.

Lemma hueFacts_all : forallb3 unitTable hueFacts = true.
Proof. vm_compute. reflexivity. Qed.

Section Channels.
Local Open Scope float_scope.

Lemma unitFacts_channel (z : Z) :
  inChannel z ->
  is_nan (normalise z) = false /\ is_neg_zero (normalise z) = false
  /\ (neg_infinity <? normalise z) = true
  /\ (normalise z <? infinity) = true.
Proof.
  intros Hz.
  pose proof (proj1 (forallb_forall _ _) unitFacts_all z
                (channelValues_In z Hz)) as H.
  unfold unitFacts in H.
  repeat (apply andb_true_iff in H as [H ?]).
  repeat split; try assumption; now apply negb_true_iff.
Qed.

Lemma orderFacts_channel (p q : Z) :
  inChannel p -> inChannel q ->
  (normalise p <? normalise q) = (p <? q)%Z
  /\ (normalise p =? normalise q) = (p =? q)%Z.
Proof.
  intros Hp Hq.
  pose proof (proj1 (forallb_forall _ _) orderFacts_all p
                (channelValues_In p Hp)) as H.
  pose proof (proj1 (forallb_forall _ _) H q (channelValues_In q Hq)) as H'.
  unfold orderFacts in H'. apply andb_true_iff in H' as [H1 H2].
  split; now apply eqb_prop.
Qed.

Lemma pairFacts_channel (hi lo : Z) :
  inChannel hi -> inChannel lo -> pairFacts hi lo = true.
Proof.
  intros Hp Hq.
  pose proof (proj1 (forallb_forall _ _) pairFacts_all hi
                (channelValues_In hi Hp)) as H.
  exact (proj1 (forallb_forall _ _) H lo (channelValues_In lo Hq)).
Qed.

Lemma hueFacts_channel (r g b : Z) :
  inChannel r -> inChannel g -> inChannel b ->
  hueFacts (normalise r) (normalise g) (normalise b) = true.
Proof.
  intros Hr Hg Hb.
  apply (forallb3_spec unitTable hueFacts hueFacts_all);
    now apply unitTable_In.
Qed.

Lemma maxChannel_in (r g b : Z) :
  inChannel r -> inChannel g -> inChannel b -> inChannel (maxChannel r g b).
Proof. channel. Qed.

Lemma minChannel_in (r g b : Z) :
  inChannel r -> inChannel g -> inChannel b -> inChannel (minChannel r g b).
Proof. channel. Qed.

Lemma ltb_pick_max (p q : Z) :
  inChannel p -> inChannel q ->
  (if normalise p <? normalise q then normalise q else normalise p)
  = normalise (Z.max p q).
Proof.
  intros Hp Hq. rewrite (proj1 (orderFacts_channel p q Hp Hq)).
  destruct (Z.ltb_spec p q); [rewrite Z.max_r | rewrite Z.max_l];
    solve [reflexivity | lia].
Qed.

Lemma ltb_pick_min (p q : Z) :
  inChannel p -> inChannel q ->
  (if normalise q <? normalise p then normalise q else normalise p)
  = normalise (Z.min p q).
Proof.
  intros Hp Hq. rewrite (proj1 (orderFacts_channel q p Hq Hp)).
  destruct (Z.ltb_spec q p); [rewrite Z.min_r | rewrite Z.min_l];
    solve [reflexivity | lia].
Qed.

Lemma max_step_channels (p q : Z) :
  inChannel p -> inChannel q ->
  max_step (normalise p) (normalise q) = normalise (Z.max p q).
Proof.
  intros Hp Hq. unfold max_step.
  destruct (unitFacts_channel p Hp) as (_ & Hz & _).
  rewrite Hz, andb_false_r. now apply ltb_pick_max.
Qed.

Lemma min_step_channels (p q : Z) :
  inChannel p -> inChannel q ->
  min_step (normalise p) (normalise q) = normalise (Z.min p q).
Proof.
  intros Hp Hq. unfold min_step.
  destruct (unitFacts_channel q Hq) as (_ & Hz & _).
  rewrite Hz, andb_false_l. now apply ltb_pick_min.
Qed.

Lemma Math_max_channels (r g b : Z) :
  inChannel r -> inChannel g -> inChannel b ->
  Math_max [normalise r; normalise g; normalise b]
  = normalise (maxChannel r g b).
Proof.
  intros Hr Hg Hb. unfold Math_max, maxChannel.
  destruct (unitFacts_channel r Hr) as (Nr & Zr & Lr & _).
  destruct (unitFacts_channel g Hg) as (Ng & _).
  destruct (unitFacts_channel b Hb) as (Nb & _).
  cbn [existsb fold_left]. rewrite Nr, Ng, Nb. cbn [orb].
  assert (H0 : max_step neg_infinity (normalise r) = normalise r).
  { unfold max_step.
    change (is_neg_zero neg_infinity) with false.
    now rewrite andb_false_r, Lr. }
  rewrite H0, max_step_channels by assumption.
  apply max_step_channels; [channel | assumption].
Qed.

Lemma Math_min_channels (r g b : Z) :
  inChannel r -> inChannel g -> inChannel b ->
  Math_min [normalise r; normalise g; normalise b]
  = normalise (minChannel r g b).
Proof.
  intros Hr Hg Hb. unfold Math_min, minChannel.
  destruct (unitFacts_channel r Hr) as (Nr & Zr & _ & Ur).
  destruct (unitFacts_channel g Hg) as (Ng & _).
  destruct (unitFacts_channel b Hb) as (Nb & _).
  cbn [existsb fold_left]. rewrite Nr, Ng, Nb. cbn [orb].
  assert (H0 : min_step infinity (normalise r) = normalise r).
  { unfold min_step. now rewrite Zr, andb_false_l, Ur. }
  rewrite H0, min_step_channels by assumption.
  apply min_step_channels; [channel | assumption].
Qed.

Lemma max3_channels (r g b : Z) :
  inChannel r -> inChannel g -> inChannel b ->
  max3 (normalise r) (normalise g) (normalise b)
  = normalise (maxChannel r g b).
Proof.
  intros Hr Hg Hb. unfold max3, maxChannel. cbv zeta.
  rewrite ltb_pick_max by assumption.
  apply ltb_pick_max; [channel | assumption].
Qed.

Lemma min3_channels (r g b : Z) :
  inChannel r -> inChannel g -> inChannel b ->
  min3 (normalise r) (normalise g) (normalise b)
  = normalise (minChannel r g b).
Proof.
  intros Hr Hg Hb. unfold min3, minChannel. cbv zeta.
  rewrite ltb_pick_min by assumption.
  apply ltb_pick_min; [channel | assumption].
Qed.

(** The facts of a triple, assembled from those of its parts. *)
Lemma resultFacts_channels (r g b : Z) :
  inChannel r -> inChannel g -> inChannel b ->
  resultFacts (Number_ofZ r) (Number_ofZ g) (Number_ofZ b) = true.
Proof.
  intros Hr Hg Hb.
  pose proof (maxChannel_in r g b Hr Hg Hb) as Hhi.
  pose proof (minChannel_in r g b Hr Hg Hb) as Hlo.
  pose proof (pairFacts_channel _ _ Hhi Hlo) as Hpair.
  pose proof (hueFacts_channel r g b Hr Hg Hb) as Hhue.
  unfold hueFacts in Hhue. cbv zeta in Hhue.
  rewrite max3_channels, min3_channels in Hhue by assumption.
  unfold resultFacts, hslOf.
  change (Number_ofZ r / 255) with (normalise r).
  change (Number_ofZ g / 255) with (normalise g).
  change (Number_ofZ b / 255) with (normalise b).
  cbv zeta.
  rewrite Math_max_channels, Math_min_channels by assumption.
  rewrite (proj2 (orderFacts_channel _ _ Hhi Hlo)) in Hhue |- *.
  unfold pairFacts in Hpair.
  assert (Hle : (minChannel r g b <= maxChannel r g b)%Z) by channel.
  destruct (Z.leb_spec (minChannel r g b) (maxChannel r g b)) as [_|]; [|lia].
  apply andb_true_iff in Hpair as [Hlight Hsat].
  unfold lightnessFacts in Hlight. cbv zeta in Hlight.
  apply andb_true_iff in Hlight as [Hlight _].
  apply andb_true_iff in Hlight as [Hl100 Hl].
  destruct (Z.eqb_spec (maxChannel r g b) (minChannel r g b)) as [Heq|Hne];
    cbn [negb].
  - rewrite Hl100, Hl. reflexivity.
  - destruct (Z.ltb_spec (minChannel r g b) (maxChannel r g b)) as [_|]; [|lia].
    unfold saturationFacts in Hsat. cbv zeta in Hsat.
    apply andb_true_iff in Hsat as [Hsat Hs].
    apply andb_true_iff in Hsat as [_ Hs100].
    unfold hueBranch in Hhue.
    rewrite Hhue, Hs100, Hl100, Hs, Hl. reflexivity.
Qed.

Lemma divisorFacts_channels (r g b : Z) :
  inChannel r -> inChannel g -> inChannel b ->
  divisorFacts (Number_ofZ r) (Number_ofZ g) (Number_ofZ b) = true.
Proof.
  intros Hr Hg Hb.
  pose proof (maxChannel_in r g b Hr Hg Hb) as Hhi.
  pose proof (minChannel_in r g b Hr Hg Hb) as Hlo.
  pose proof (pairFacts_channel _ _ Hhi Hlo) as Hpair.
  unfold divisorFacts.
  change (Number_ofZ r / 255) with (normalise r).
  change (Number_ofZ g / 255) with (normalise g).
  change (Number_ofZ b / 255) with (normalise b).
  cbv zeta.
  rewrite Math_max_channels, Math_min_channels by assumption.
  rewrite (proj2 (orderFacts_channel _ _ Hhi Hlo)).
  unfold pairFacts in Hpair.
  assert (Hle : (minChannel r g b <= maxChannel r g b)%Z) by channel.
  destruct (Z.leb_spec (minChannel r g b) (maxChannel r g b)) as [_|]; [|lia].
  apply andb_true_iff in Hpair as [Hlight Hsat].
  unfold lightnessFacts in Hlight. cbv zeta in Hlight.
  apply andb_true_iff in Hlight as [_ Hcmp].
  rewrite Hcmp. cbn [andb].
  destruct (Z.eqb_spec (maxChannel r g b) (minChannel r g b)) as [Heq|Hne];
    cbn [negb]; [reflexivity|].
  destruct (Z.ltb_spec (minChannel r g b) (maxChannel r g b)) as [_|]; [|lia].
  unfold saturationFacts in Hsat. cbv zeta in Hsat.
  apply andb_true_iff in Hsat as [Hsat _].
  apply andb_true_iff in Hsat as [Hsat _].
  exact Hsat.
Qed.

End Channels.

(** ** The hex formatter *)

Lemma digitChar_lowerHex (d : Z) :
  (0 <= d < 16)%Z -> isLowerHexDigit (digitChar d) = true.
Proof.
  intros Hd.
  assert (Hcases : In d (map Z.of_nat (seq 0 16))).
  { apply in_map_iff. exists (Z.to_nat d). split; [lia|].
    apply in_seq. lia. }
  cbv [seq map] in Hcases. simpl in Hcases.
  repeat (destruct Hcases as [<-|Hcases]; [reflexivity|]).
  contradiction.
Qed.

Lemma hexValue_digitChar (d : Z) :
  (0 <= d < 16)%Z -> hexValue (digitChar d) = Some d.
Proof.
  intros Hd.
  assert (Hcases : In d (map Z.of_nat (seq 0 16))).
  { apply in_map_iff. exists (Z.to_nat d). split; [lia|].
    apply in_seq. lia. }
  cbv [seq map] in Hcases. simpl in Hcases.
  repeat (destruct Hcases as [<-|Hcases]; [reflexivity|]).
  contradiction.
Qed.

(** One digit is enough below the radix, whatever the fuel. *)
Lemma digitsOf_small (fuel : nat) (radix n : Z) (acc : string) :
  (0 <= n < radix)%Z ->
  digitsOf fuel radix n acc = String (digitChar n) acc.
Proof.
  intros Hn. destruct fuel as [|k]; cbn [digitsOf].
  - now rewrite Z.mod_small.
  - rewrite Z.mod_small by assumption.
    rewrite Z.div_small by assumption. reflexivity.
Qed.

Lemma toHex_channel (n : Z) : inChannel n -> toHex n = twoDigitHex n.
Proof.
  unfold inChannel, toHex, Number_toString, natToString, twoDigitHex.
  intros Hn.
  destruct (Z.ltb_spec n 0) as [Hneg|_]; [lia|].
  destruct (Z_lt_ge_dec n 16) as [Hsmall|Hbig].
  - rewrite digitsOf_small by lia.
    rewrite (Z.div_small n 16), (Z.mod_small n 16) by lia. reflexivity.
  - assert (Hlog : (4 <= Z.log2 n)%Z) by (apply Z.log2_le_pow2; simpl; lia).
    destruct (Z.to_nat (Z.log2 n)) as [|k] eqn:Hfuel; [lia|].
    cbn [digitsOf].
    destruct (Z.eqb_spec (n / 16) 0) as [Hq|_].
    + assert (1 <= n / 16)%Z by (apply Z.div_le_lower_bound; lia). lia.
    + rewrite digitsOf_small
        by (split; [apply Z.div_pos; lia | apply Z.div_lt_upper_bound; lia]).
      reflexivity.
Qed.

Lemma twoDigitHex_matches (n : Z) :
  inChannel n ->
  forallb isLowerHexDigit (list_ascii_of_string (twoDigitHex n)) = true.
Proof.
  unfold inChannel. intros Hn. cbn [twoDigitHex list_ascii_of_string forallb].
  rewrite !digitChar_lowerHex; [reflexivity | |].
  - apply Z.mod_pos_bound. lia.
  - split; [apply Z.div_pos; lia | apply Z.div_lt_upper_bound; lia].
Qed.


Lemma rgbToHex_channels (r g b : Z) :
  inChannel r -> inChannel g -> inChannel b ->
  rgbToHex r g b = ("#" ++ twoDigitHex r ++ twoDigitHex g ++ twoDigitHex b)%string.
Proof.
  intros Hr Hg Hb. unfold rgbToHex.
  now rewrite !toHex_channel.
Qed.

(** C4: on channel values [rgbToHex] returns [#] followed by the two-digit
    lower-case base-16 numerals of [r], [g] and [b] (zero padded below 16),
    a string that matches [^#[0-9a-f]{6}$]. *)
Theorem rgbToHex_format (r g b : Z) :
  inChannel r -> inChannel g -> inChannel b ->
  rgbToHex r g b
    = ("#" ++ twoDigitHex r ++ twoDigitHex g ++ twoDigitHex b)%string
  /\ matchesHexColor (rgbToHex r g b) = true
  /\ String.length (rgbToHex r g b) = 7%nat
  /\ toHex 5 = "05"%string /\ toHex 255 = "ff"%string.
Proof.
  intros Hr Hg Hb. rewrite rgbToHex_channels by assumption.
  split; [reflexivity|]. split; [|split; [reflexivity|split; reflexivity]].
  pose proof (twoDigitHex_matches r Hr) as Mr.
  pose proof (twoDigitHex_matches g Hg) as Mg.
  pose proof (twoDigitHex_matches b Hb) as Mb.
  cbn [twoDigitHex list_ascii_of_string forallb] in Mr, Mg, Mb.
  cbn -[digitChar isLowerHexDigit Z.div Z.modulo].
  apply andb_true_iff in Mr as [Mr1 Mr]. apply andb_true_iff in Mr as [Mr2 _].
  apply andb_true_iff in Mg as [Mg1 Mg]. apply andb_true_iff in Mg as [Mg2 _].
  apply andb_true_iff in Mb as [Mb1 Mb]. apply andb_true_iff in Mb as [Mb2 _].
  now rewrite Mr1, Mr2, Mg1, Mg2, Mb1, Mb2.
Qed.

Lemma rgbToHex_format_witness :
  rgbToHex 171 5 255 = "#ab05ff"%string
  /\ matchesHexColor (rgbToHex 171 5 255) = true
  /\ String.length (rgbToHex 171 5 255) = 7%nat
  /\ toHex 5 = "05"%string /\ toHex 255 = "ff"%string.
Proof.
  apply (rgbToHex_format 171 5 255); unfold inChannel; lia.
Defined.


(** ** Decoding doubles *)

Section Decoding.
Local Open Scope Z_scope.

Lemma digits2_pos_bounds (m : positive) :
  2 ^ (Z.pos (digits2_pos m) - 1) <= Z.pos m < 2 ^ Z.pos (digits2_pos m).
Proof.
  induction m as [p IH|p IH|]; cbn [digits2_pos].
  - rewrite Pos2Z.inj_succ.
    replace (Z.succ (Z.pos (digits2_pos p)) - 1)
      with (Z.succ (Z.pos (digits2_pos p) - 1)) by lia.
    rewrite !Z.pow_succ_r by lia. lia.
  - rewrite Pos2Z.inj_succ.
    replace (Z.succ (Z.pos (digits2_pos p)) - 1)
      with (Z.succ (Z.pos (digits2_pos p) - 1)) by lia.
    rewrite !Z.pow_succ_r by lia. lia.
  - simpl. lia.
Qed.

(** A valid finite double: exponent range, 53 bits of mantissa, and a
    full mantissa unless the exponent is the smallest one. *)
Lemma valid_finite (s : bool) (m : positive) (e : Z) :
  valid_binary (S754_finite s m e) = true ->
  -1074 <= e <= 971
  /\ Z.pos m < 2 ^ 53
  /\ (-1074 < e -> 2 ^ 52 <= Z.pos m).
Proof.
  unfold SpecFloat.valid_binary, bounded, canonical_mantissa, fexp, emin.
  change prec with 53. change emax with 1024.
  intros H. apply andb_true_iff in H as [Hc He].
  apply Z.eqb_eq in Hc. apply Z.leb_le in He.
  pose proof (digits2_pos_bounds m) as [Hlo Hhi].
  assert (Hd : Z.pos (digits2_pos m) <= 53) by lia.
  split; [lia|]. split.
  - eapply Z.lt_le_trans; [exact Hhi|].
    apply Z.pow_le_mono_r; lia.
  - intros Hnorm.
    assert (Hd' : Z.pos (digits2_pos m) = 53) by lia.
    now rewrite Hd' in Hlo.
Qed.

Lemma smaller_exponent_smaller (m1 m2 K G T : Z) :
  0 < K -> 1 <= G -> 0 < T -> 0 < m1 < 2 * T -> T <= m2 ->
  m1 * K < m2 * (G * (2 * K)).
Proof.
  intros HK HG HT Hm1 Hm2.
  apply Z.lt_le_trans with (2 * T * K).
  { apply Z.mul_lt_mono_pos_r; lia. }
  apply Z.le_trans with (2 * m2 * K).
  { apply Z.mul_le_mono_nonneg_r; lia. }
  replace (m2 * (G * (2 * K))) with (G * (2 * m2 * K)) by ring.
  rewrite <- (Z.mul_1_l (2 * m2 * K)) at 1.
  apply Z.mul_le_mono_nonneg_r; [|assumption].
  apply Z.mul_nonneg_nonneg; lia.
Qed.

(** Comparison of non-negative valid doubles is comparison of their
    scaled values. *)
Lemma SFcompare_scaled (m1 m2 : positive) (e1 e2 : Z) :
  valid_binary (S754_finite false m1 e1) = true ->
  valid_binary (S754_finite false m2 e2) = true ->
  SFcompare (S754_finite false m1 e1) (S754_finite false m2 e2)
  = Some (SFscaled (S754_finite false m1 e1)
          ?= SFscaled (S754_finite false m2 e2)).
Proof.
  intros V1 V2.
  destruct (valid_finite _ _ _ V1) as (He1 & Hm1 & Hn1).
  destruct (valid_finite _ _ _ V2) as (He2 & Hm2 & Hn2).
  cbn [SFcompare SFscaled signed]. f_equal.
  assert (Hsplit : forall a b, -1074 <= a < b ->
            2 ^ (b + 1074) = 2 ^ (b - a - 1) * (2 * 2 ^ (a + 1074))).
  { intros a b Hab. rewrite <- Z.pow_succ_r, <- Z.pow_add_r by lia.
    f_equal. lia. }
  destruct (Z.compare_spec e1 e2) as [Heq|Hlt|Hgt].
  - subst e2. rewrite Pos.compare_cont_spec. cbn [Pos.switch_Eq].
    rewrite <- Zmult_compare_compat_r
      by (apply Z.lt_gt, Z.pow_pos_nonneg; lia).
    change (Z.pos m1 ?= Z.pos m2) with (Pos.compare m1 m2).
    now destruct (Pos.compare m1 m2).
  - symmetry. apply Z.compare_lt_iff.
    rewrite (Hsplit e1 e2) by lia.
    apply smaller_exponent_smaller with (T := 2 ^ 52).
    + apply Z.pow_pos_nonneg; lia.
    + change 1 with (2 ^ 0). apply Z.pow_le_mono_r; lia.
    + reflexivity.
    + split; [reflexivity | exact Hm1].
    + apply Hn2; lia.
  - symmetry. apply Z.compare_gt_iff.
    rewrite (Hsplit e2 e1) by lia.
    apply smaller_exponent_smaller with (T := 2 ^ 52).
    + apply Z.pow_pos_nonneg; lia.
    + change 1 with (2 ^ 0). apply Z.pow_le_mono_r; lia.
    + reflexivity.
    + split; [reflexivity | exact Hm2].
    + apply Hn1; lia.
Qed.

(** A double in [0, top) is a zero, or finite and positive with a
    smaller scaled value. *)
Lemma roundsBelow_decode (top x : float) (mt : positive) (et : Z) :
  Prim2SF top = S754_finite false mt et ->
  roundsBelow top x = true ->
  (exists s, Prim2SF x = S754_zero s)
  \/ (exists m e, Prim2SF x = S754_finite false m e
                  /\ -1074 <= e <= 971
                  /\ Z.pos m * 2 ^ (e + 1074) < Z.pos mt * 2 ^ (et + 1074)).
Proof.
  intros Htop Hx. unfold roundsBelow in Hx.
  apply andb_true_iff in Hx as [H0 Hlt].
  rewrite leb_spec in H0. rewrite ltb_spec, Htop in Hlt.
  change (Prim2SF 0) with (S754_zero false) in H0.
  pose proof (Prim2SF_valid x) as Vx.
  pose proof (Prim2SF_valid top) as Vt. rewrite Htop in Vt.
  destruct (Prim2SF x) as [s|s| |s m e].
  - left. now exists s.
  - destruct s; discriminate.
  - discriminate.
  - right. destruct s; [discriminate|]. exists m, e.
    split; [reflexivity|].
    split; [apply (valid_finite _ _ _ Vx)|].
    unfold SFltb in Hlt. rewrite SFcompare_scaled in Hlt by assumption.
    cbn [SFscaled signed] in Hlt.
    destruct (Z.compare_spec (Z.pos m * 2 ^ (e + 1074))
                             (Z.pos mt * 2 ^ (et + 1074)));
      solve [assumption | discriminate].
Qed.

(** [Math.round] and [Math.floor] on the scaled value. *)
Lemma round_scaled (m : positive) (e : Z) :
  -1074 <= e ->
  (if e <? 0 then (2 * Z.pos m + 2 ^ (- e)) / 2 ^ (1 - e)
   else Z.pos m * 2 ^ e)
  = (2 * (Z.pos m * 2 ^ (e + 1074)) + 2 ^ 1074) / (2 * 2 ^ 1074).
Proof.
  intros He.
  assert (HK : 0 < 2 ^ (e + 1074)) by (apply Z.pow_pos_nonneg; lia).
  destruct (Z.ltb_spec e 0) as [Hneg|Hpos].
  - replace (2 ^ 1074) with (2 ^ (- e) * 2 ^ (e + 1074))
      by (rewrite <- Z.pow_add_r by lia; f_equal; lia).
    replace (2 * (Z.pos m * 2 ^ (e + 1074)) + 2 ^ (- e) * 2 ^ (e + 1074))
      with ((2 * Z.pos m + 2 ^ (- e)) * 2 ^ (e + 1074)) by ring.
    replace (2 * (2 ^ (- e) * 2 ^ (e + 1074)))
      with (2 ^ (1 - e) * 2 ^ (e + 1074)).
    + rewrite Z.div_mul_cancel_r; [reflexivity| |lia].
      apply Z.pow_nonzero; lia.
    + replace (1 - e) with (Z.succ (- e)) by lia.
      rewrite Z.pow_succ_r by lia. ring.
  - replace (2 ^ (e + 1074)) with (2 ^ e * 2 ^ 1074)
      by (rewrite <- Z.pow_add_r by lia; reflexivity).
    generalize (2 ^ 1074) (Z.pow_pos_nonneg 2 1074 eq_refl ltac:(lia)).
    intros P HP.
    replace (2 * (Z.pos m * (2 ^ e * P)) + P)
      with ((2 * (Z.pos m * 2 ^ e) + 1) * P) by ring.
    rewrite Z.div_mul_cancel_r by lia.
    generalize (Z.pos m * 2 ^ e). intros a.
    apply Z.div_unique with (r := 1); [lia | ring].
Qed.

Lemma floor_scaled (m : positive) (e : Z) :
  -1074 <= e ->
  (if e <? 0 then Z.pos m / 2 ^ (- e) else Z.pos m * 2 ^ e)
  = (Z.pos m * 2 ^ (e + 1074)) / 2 ^ 1074.
Proof.
  intros He.
  assert (HK : 0 < 2 ^ (e + 1074)) by (apply Z.pow_pos_nonneg; lia).
  destruct (Z.ltb_spec e 0) as [Hneg|Hpos].
  - replace (2 ^ 1074) with (2 ^ (- e) * 2 ^ (e + 1074))
      by (rewrite <- Z.pow_add_r by lia; f_equal; lia).
    rewrite Z.div_mul_cancel_r; [reflexivity| |lia].
    apply Z.pow_nonzero; lia.
  - replace (2 ^ (e + 1074)) with (2 ^ e * 2 ^ 1074)
      by (rewrite <- Z.pow_add_r by lia; reflexivity).
    rewrite Z.mul_assoc, Z.div_mul; [reflexivity|].
    apply Z.pow_nonzero; lia.
Qed.

(** The bridge from the checked comparisons to the printed integers:
    a double in [0, n + 1/2) rounds to an integer in [0..n]. *)
Lemma Math_round_below (top x : float) (mt : positive) (et n : Z) :
  Prim2SF top = S754_finite false mt et ->
  Z.pos mt * 2 ^ (et + 1074) <= (2 * n + 1) * 2 ^ 1073 ->
  roundsBelow top x = true ->
  exists z, Math_round x = IInt z /\ 0 <= z <= n.
Proof.
  intros Htop Hn Hx.
  assert (Hn0 : 0 <= n).
  { assert (0 < Z.pos mt * 2 ^ (et + 1074)).
    { apply Z.mul_pos_pos; [lia|]. apply Z.pow_pos_nonneg; [lia|].
      pose proof (Prim2SF_valid top) as Vt. rewrite Htop in Vt.
      pose proof (valid_finite _ _ _ Vt). lia. }
    assert (0 < 2 ^ 1073) by (apply Z.pow_pos_nonneg; lia).
    nia. }
  destruct (roundsBelow_decode top x mt et Htop Hx)
    as [[s Hz]|(m & e & Hf & He & Hlt)]; unfold Math_round.
  - rewrite Hz. exists 0. split; [reflexivity | lia].
  - rewrite Hf. cbn [signed]. eexists. split; [reflexivity|].
    rewrite round_scaled by lia.
    revert Hlt Hn.
    generalize (Z.pos mt * 2 ^ (et + 1074)).
    assert (HV : 0 < Z.pos m * 2 ^ (e + 1074))
      by (apply Z.mul_pos_pos; [lia | apply Z.pow_pos_nonneg; lia]).
    revert HV. generalize (Z.pos m * 2 ^ (e + 1074)).
    change (2 ^ 1074) with (2 * 2 ^ 1073).
    generalize (2 ^ 1073) (Z.pow_pos_nonneg 2 1073 eq_refl ltac:(lia)).
    intros Q HQ V HV T Hlt Hn. split.
    + apply Z.div_pos; lia.
    + apply Z.lt_succ_r, Z.div_lt_upper_bound; [lia|]. nia.
Qed.

End Decoding.

(** ** Scaling a double by 256 is exact *)

Section Scaling.
Local Open Scope Z_scope.

Lemma iter_pos_nat {A : Type} (f : A -> A) (p : positive) :
forall x, iter_pos f p x = Nat.iter (Pos.to_nat p) f x.
Proof.
induction p as [p IH|p IH|]; intros x; cbn [iter_pos].
- rewrite !IH, Pos2Nat.inj_xI.
  rewrite <- Nat.iter_add, <- Nat.iter_succ_r. f_equal. lia.
- rewrite !IH, Pos2Nat.inj_xO.
  rewrite <- Nat.iter_add. f_equal. lia.
- reflexivity.
Qed.

Lemma shifted_value (m : positive) (k : nat) :
Z.pos (shifted m k) = Z.pos m * 2 ^ Z.of_nat k.
Proof.
induction k as [|k IH]; [simpl; lia|].
change (shifted m (S k)) with ((shifted m k)~0)%positive.
rewrite Pos2Z.inj_xO, IH, Nat2Z.inj_succ, Z.pow_succ_r by lia. ring.
Qed.

Lemma shifted_digits (m : positive) (k : nat) :
Z.pos (digits2_pos (shifted m k)) = Z.pos (digits2_pos m) + Z.of_nat k.
Proof.
induction k as [|k IH]; [simpl; lia|].
change (shifted m (S k)) with ((shifted m k)~0)%positive.
cbn [digits2_pos]. rewrite Pos2Z.inj_succ, IH. lia.
Qed.

Lemma shr_1_shifted (m : positive) (k : nat) :
shr_1 (exactRecord (shifted m (S k))) = exactRecord (shifted m k).
Proof. reflexivity. Qed.

Lemma iter_shr_1_shifted (m : positive) (j : nat) :
forall k, (j <= k)%nat ->
Nat.iter j shr_1 (exactRecord (shifted m k)) = exactRecord (shifted m (k - j)).
Proof.
induction j as [|j IH]; intros k Hk.
- now rewrite Nat.sub_0_r.
- destruct k as [|k]; [lia|].
  rewrite Nat.iter_succ_r, shr_1_shifted, IH by lia. reflexivity.
Qed.

(** Shifting out zero bits loses nothing. *)
Lemma shr_shifted (m : positive) (k : nat) (e n : Z) :
0 <= n <= Z.of_nat k ->
shr (exactRecord (shifted m k)) e n
= (exactRecord (shifted m (k - Z.to_nat n)), e + n).
Proof.
intros Hn. unfold shr. destruct n as [|p|p]; [| |lia].
- now rewrite Nat.sub_0_r, Z.add_0_r.
- rewrite iter_pos_nat, iter_shr_1_shifted by lia. reflexivity.
Qed.

Lemma SFmul_256 (m : positive) (e : Z) :
valid_binary (S754_finite false m e) = true -> e < 0 ->
exists m' e',
  SF64mul (S754_finite false m e) (S754_finite false 4503599627370496 (-44))
  = S754_finite false m' e'
  /\ -1074 <= e'
  /\ Z.pos m' * 2 ^ (e' + 1074) = 256 * (Z.pos m * 2 ^ (e + 1074)).
Proof.
intros V Hneg.
destruct (valid_finite _ _ _ V) as (He & Hm & Hnorm).
pose proof (digits2_pos_bounds m) as Hd.
assert (Hcanon : Z.max (Z.pos (digits2_pos m) + e - 53) (-1074) = e).
{ unfold SpecFloat.valid_binary, bounded, canonical_mantissa in V.
  apply andb_true_iff in V as [Hc _]. apply Z.eqb_eq in Hc. exact Hc. }
unfold SF64mul, SFmul. cbn [xorb].
replace (m * 4503599627370496)%positive with (shifted m 52)
  by (unfold shifted; cbn [Nat.iter];
      now rewrite !Pos.mul_xO_r, Pos.mul_1_r).
unfold binary_round_aux, shr_fexp.
cbn [shr_record_of_loc Zdigits2].
fold (exactRecord (shifted m 52)).
rewrite shifted_digits.
unfold fexp, emin. change prec with 53. change emax with 1024.
set (d := Z.pos (digits2_pos m)) in *.
set (n := Z.max (d + Z.of_nat 52 + (e + -44) - 53) (3 - 1024 - 53) - (e + -44)).
assert (Hn : 0 <= n <= Z.of_nat 52) by (unfold n; lia).
rewrite (shr_shifted m 52 (e + -44) n Hn).
cbn [exactRecord shr_m loc_of_shr_record round_nearest_even Zdigits2].
rewrite shifted_digits.
match goal with
| |- context [shr _ _ ?k] => replace k with 0 by (unfold n, d in *; lia)
end.
cbn [shr shr_m].
destruct (Z.leb_spec (e + -44 + n) (1024 - 53)) as [_|Hbig]; [|lia].
exists (shifted m (52 - Z.to_nat n)), (e + -44 + n).
split; [reflexivity|]. split; [lia|].
rewrite shifted_value.
replace (256 * (Z.pos m * 2 ^ (e + 1074)))
  with (Z.pos m * (2 ^ 8 * 2 ^ (e + 1074))) by (change (2 ^ 8) with 256; ring).
rewrite <- Z.mul_assoc, <- !Z.pow_add_r by lia.
do 2 f_equal. lia.
Qed.


End Scaling.



(** ** The HSL converter on channel values *)

Section Converter.
Local Open Scope float_scope.

Variables r g b : Z.
Hypothesis Hr : inChannel r.
Hypothesis Hg : inChannel g.
Hypothesis Hb : inChannel b.

(** The printed numbers are integers, within the bounds the checked
    comparisons give. *)
Lemma hslRounded_channels :
  exists H Sat L : Z,
    hslRounded (Number_ofZ r) (Number_ofZ g) (Number_ofZ b)
    = (IInt H, IInt Sat, IInt L)
    /\ (0 <= H <= 360)%Z /\ (0 <= Sat <= 100)%Z /\ (0 <= L <= 100)%Z.
Proof.
  pose proof (resultFacts_channels r g b Hr Hg Hb) as F.
  unfold resultFacts in F. unfold hslRounded.
  destruct (hslOf (Number_ofZ r) (Number_ofZ g) (Number_ofZ b))
    as [[h s] l].
  apply andb_true_iff in F as [F _]. apply andb_true_iff in F as [F _].
  apply andb_true_iff in F as [F Fl]. apply andb_true_iff in F as [Fh Fs].
  destruct (Math_round_below 360.5 (h * 360) _ _ 360 eq_refl) as (H & EH & BH);
    [vm_compute; discriminate | exact Fh |].
  destruct (Math_round_below 100.5 (s * 100) _ _ 100 eq_refl) as (Sat & ES & BS);
    [vm_compute; discriminate | exact Fs |].
  destruct (Math_round_below 100.5 (l * 100) _ _ 100 eq_refl) as (L & EL & BL);
    [vm_compute; discriminate | exact Fl |].
  exists H, Sat, L. now rewrite EH, ES, EL.
Qed.

End Converter.

Lemma rgbToHsl_printed (r g b : Z) (H Sat L : integral) :
  printedHsl r g b = (H, Sat, L) -> rgbToHsl r g b = hslString H Sat L.
Proof.
  unfold printedHsl, rgbToHsl. cbn [Number_ofIntegral].
  now intros ->.
Qed.

(** C1 (as amended): for channel values the hue printed by [rgbToHsl] is an
    integer between 0 and 360, both included; 360 is printed as such, it is
    not wrapped to 0. *)
Theorem rgbToHsl_hue_range (r g b : Z) :
  inChannel r -> inChannel g -> inChannel b ->
  exists H Sat L : Z,
    rgbToHsl r g b = hslString H Sat L /\ (0 <= H <= 360)%Z.
Proof.
  intros Hr Hg Hb.
  destruct (hslRounded_channels r g b Hr Hg Hb) as (H & Sat & L & E & BH & _).
  exists H, Sat, L. split; [|exact BH].
  now apply rgbToHsl_printed.
Qed.

Lemma rgbToHsl_hue_range_witness :
  exists H Sat L : Z,
    rgbToHsl 163 245 66 = hslString H Sat L /\ (0 <= H <= 360)%Z.
Proof.
  apply (rgbToHsl_hue_range 163 245 66); unfold inChannel; lia.
Defined.

(** C1 (as stated) fails: the triple (255, 0, 1) prints a hue of 360. *)
Lemma rgbToHsl_hue_360 :
  rgbToHsl 255 0 1 = "hsl(360, 100%, 50%)"%string /\ ~ hueNeverFullTurn.
Proof.
  split; [vm_compute; reflexivity|].
  intros Hclaim.
  destruct (Hclaim 255 0 1)%Z as (H & EH & BH);
    try (channel).
  vm_compute in EH. injection EH as <-. lia.
Qed.

(** The sample responses quoted in the repository's own documentation. *)
Example documented_responses :
  colorResponse 163 245 66
    = mkResponse "#a3f542" "rgb(163, 245, 66)" "hsl(87, 90%, 61%)"
  /\ colorResponse 163 242 181
    = mkResponse "#a3f2b5" "rgb(163, 242, 181)" "hsl(134, 75%, 79%)".
Proof. split; vm_compute; reflexivity. Qed.

(** C2: the five literal scenarios, field by field. *)
Theorem literal_scenarios :
  colorResponse 255 0 0
    = mkResponse "#ff0000" "rgb(255, 0, 0)" "hsl(0, 100%, 50%)"
  /\ colorResponse 0 128 0
    = mkResponse "#008000" "rgb(0, 128, 0)" "hsl(120, 100%, 25%)"
  /\ colorResponse 128 128 128
    = mkResponse "#808080" "rgb(128, 128, 128)" "hsl(0, 0%, 50%)"
  /\ colorResponse 255 255 255
    = mkResponse "#ffffff" "rgb(255, 255, 255)" "hsl(0, 0%, 100%)"
  /\ colorResponse 0 0 0
    = mkResponse "#000000" "rgb(0, 0, 0)" "hsl(0, 0%, 0%)".
Proof.
  repeat split; vm_compute; reflexivity.
Qed.

Lemma referenceHsl_channels (r g b : Z) :
  inChannel r -> inChannel g -> inChannel b ->
  referenceHsl (Number_ofZ r) (Number_ofZ g) (Number_ofZ b)
  = printedHsl r g b.
Proof.
  intros Hr Hg Hb.
  pose proof (divisorFacts_channels r g b Hr Hg Hb) as F.
  unfold divisorFacts in F. cbv zeta in F.
  apply andb_true_iff in F as [Fcmp _]. apply eqb_prop in Fcmp.
  unfold printedHsl, hslRounded, referenceHsl, hslOf. cbv zeta.
  rewrite Fcmp.
  destruct (PrimFloat.eqb _ _); cbn [negb]; [reflexivity|].
  destruct (PrimFloat.leb _ _); reflexivity.
Qed.

(** C3: on channel values [rgbToHsl] prints exactly the numbers of the
    reference algorithm of section 4.3, tie-break order included. *)
Theorem rgbToHsl_refines_reference (r g b : Z) :
  inChannel r -> inChannel g -> inChannel b ->
  printedHsl r g b
  = referenceHsl (Number_ofZ r) (Number_ofZ g) (Number_ofZ b)
  /\ rgbToHsl r g b
     = (let '(H, Sat, L) :=
          referenceHsl (Number_ofZ r) (Number_ofZ g) (Number_ofZ b) in
        hslString H Sat L).
Proof.
  intros Hr Hg Hb. rewrite referenceHsl_channels by assumption.
  split; [reflexivity|].
  destruct (printedHsl r g b) as [[H Sat] L] eqn:E.
  now apply rgbToHsl_printed.
Qed.

Lemma rgbToHsl_refines_reference_witness :
  printedHsl 200 200 10
  = referenceHsl (Number_ofZ 200) (Number_ofZ 200) (Number_ofZ 10)
  /\ rgbToHsl 200 200 10
     = (let '(H, Sat, L) :=
          referenceHsl (Number_ofZ 200) (Number_ofZ 200) (Number_ofZ 10) in
        hslString H Sat L).
Proof.
  apply (rgbToHsl_refines_reference 200 200 10); unfold inChannel; lia.
Defined.

Lemma grayFacts_all : forallb grayFacts channelValues = true.
Proof. vm_compute. reflexivity. Qed.

(** C5: a gray [(v, v, v)] prints [hsl(0, 0%, L%)] with
    [L = round (v / 255 * 100)], which is also the exact rounding of
    [100 v / 255]. *)
Theorem rgbToHsl_grayscale (v : Z) :
  inChannel v ->
  exists L : Z,
    Math_round (Number_ofZ v / 255 * 100)%float = IInt L
    /\ L = grayLightness v
    /\ printedHsl v v v = (IInt 0, IInt 0, IInt L)
    /\ rgbToHsl v v v
       = ("hsl(0, 0%, " ++ Number_toString 10 L ++ "%)")%string.
Proof.
  intros Hv.
  pose proof (proj1 (forallb_forall _ _) grayFacts_all v
                (channelValues_In v Hv)) as F.
  unfold grayFacts in F.
  destruct (printedHsl v v v) as [[H Sat] L] eqn:E.
  destruct H as [| |[|?|?]]; try discriminate.
  destruct Sat as [| |[|?|?]]; try discriminate.
  destruct L as [| |L]; try discriminate.
  destruct (Math_round (Number_ofZ v / 255 * 100)%float) as [| |L'] eqn:EL;
    try discriminate.
  apply andb_true_iff in F as [F1 F2].
  apply Z.eqb_eq in F1, F2. subst L'.
  exists L. split; [reflexivity|]. split; [exact F2|]. split; [reflexivity|].
  now rewrite (rgbToHsl_printed v v v _ _ _ E).
Qed.

Lemma rgbToHsl_grayscale_witness :
  exists L : Z,
    Math_round (Number_ofZ 128 / 255 * 100)%float = IInt L
    /\ L = grayLightness 128
    /\ printedHsl 128 128 128 = (IInt 0, IInt 0, IInt L)
    /\ rgbToHsl 128 128 128
       = ("hsl(0, 0%, " ++ Number_toString 10 L ++ "%)")%string.
Proof.
  apply (rgbToHsl_grayscale 128); unfold inChannel; lia.
Defined.

(** C6: saturation and lightness lie in [0, 1] before rounding, in either
    branch of the saturation formula, and are printed as integers in
    [0..100]. *)
Theorem rgbToHsl_saturation_lightness_range (r g b : Z) :
  inChannel r -> inChannel g -> inChannel b ->
  exists (h s l : float) (H Sat L : Z),
    hslOf (Number_ofZ r) (Number_ofZ g) (Number_ofZ b) = (h, s, l)
    /\ ((0 <=? s) = true /\ (s <=? 1) = true)%float
    /\ ((0 <=? l) = true /\ (l <=? 1) = true)%float
    /\ Math_round (s * 100)%float = IInt Sat
    /\ Math_round (l * 100)%float = IInt L
    /\ rgbToHsl r g b = hslString H Sat L
    /\ (0 <= Sat <= 100)%Z /\ (0 <= L <= 100)%Z.
Proof.
  intros Hr Hg Hb.
  pose proof (resultFacts_channels r g b Hr Hg Hb) as F.
  destruct (hslRounded_channels r g b Hr Hg Hb)
    as (H & Sat & L & E & _ & BS & BL).
  pose proof (rgbToHsl_printed r g b _ _ _ E) as P.
  unfold resultFacts in F. unfold hslRounded in E.
  destruct (hslOf (Number_ofZ r) (Number_ofZ g) (Number_ofZ b))
    as [[h s] l].
  apply andb_true_iff in F as [F Ul]. apply andb_true_iff in F as [_ Us].
  unfold inUnit in Us, Ul.
  apply andb_true_iff in Us as [Us0 Us1].
  apply andb_true_iff in Ul as [Ul0 Ul1].
  injection E as _ ES EL.
  exists h, s, l, H, Sat, L. tauto.
Qed.

Lemma rgbToHsl_saturation_lightness_range_witness :
  exists (h s l : float) (H Sat L : Z),
    hslOf (Number_ofZ 9) (Number_ofZ 7) (Number_ofZ 7) = (h, s, l)
    /\ ((0 <=? s) = true /\ (s <=? 1) = true)%float
    /\ ((0 <=? l) = true /\ (l <=? 1) = true)%float
    /\ Math_round (s * 100)%float = IInt Sat
    /\ Math_round (l * 100)%float = IInt L
    /\ rgbToHsl 9 7 7 = hslString H Sat L
    /\ (0 <= Sat <= 100)%Z /\ (0 <= L <= 100)%Z.
Proof.
  apply (rgbToHsl_saturation_lightness_range 9 7 7); unfold inChannel; lia.
Defined.

(** C7: no division of [rgbToHsl] has a zero divisor on channel values: the
    guarded body never fails and returns what the plain body returns; in the
    [max !== min] branch [d] is positive, and so is the divisor of the
    saturation, [2 - max - min] when [l > 0.5] and [max + min] otherwise. *)
Theorem rgbToHsl_no_division_by_zero (r g b : Z) :
  inChannel r -> inChannel g -> inChannel b ->
  hslOf_guarded (Number_ofZ r) (Number_ofZ g) (Number_ofZ b)
  = Some (hslOf (Number_ofZ r) (Number_ofZ g) (Number_ofZ b))
  /\ (let max := Math_max [normalise r; normalise g; normalise b] in
      let min := Math_min [normalise r; normalise g; normalise b] in
      let l := (max + min) / 2 in
      (max =? min) = false ->
      (0 <? max - min) = true
      /\ (if 0.5 <? l then 0 <? 2 - max - min else 0 <? max + min) = true)%float.
Proof.
  intros Hr Hg Hb.
  pose proof (divisorFacts_channels r g b Hr Hg Hb) as F.
  unfold divisorFacts in F.
  unfold hslOf_guarded, hslOf, guardedDiv.
  change (255 =? 0)%float with false. cbn [bindOpt].
  change (2 =? 0)%float with false. cbn [bindOpt].
  change (6 =? 0)%float with false.
  change (Number_ofZ r / 255)%float with (normalise r) in *.
  change (Number_ofZ g / 255)%float with (normalise g) in *.
  change (Number_ofZ b / 255)%float with (normalise b) in *.
  cbv zeta in *.
  set (max := Math_max [normalise r; normalise g; normalise b]) in *.
  set (min := Math_min [normalise r; normalise g; normalise b]) in *.
  apply andb_true_iff in F as [_ F].
  destruct (max =? min)%float; cbn [negb] in *.
  { split; [reflexivity | discriminate]. }
  apply andb_true_iff in F as [F Fsat].
  apply andb_true_iff in F as [Fd Fd0]. apply negb_true_iff in Fd0.
  destruct (0.5 <? (max + min) / 2)%float;
    apply andb_true_iff in Fsat as [Fs Fs0]; apply negb_true_iff in Fs0;
    rewrite Fs0; cbn [bindOpt];
    (split; [|intros _; split; assumption]);
    (destruct (max =? normalise r)%float;
     [|destruct (max =? normalise g)%float]);
    rewrite Fd0; reflexivity.
Qed.

Lemma rgbToHsl_no_division_by_zero_witness :
  hslOf_guarded (Number_ofZ 10) (Number_ofZ 200) (Number_ofZ 30)
  = Some (hslOf (Number_ofZ 10) (Number_ofZ 200) (Number_ofZ 30))
  /\ (let max := Math_max [normalise 10; normalise 200; normalise 30] in
      let min := Math_min [normalise 10; normalise 200; normalise 30] in
      let l := (max + min) / 2 in
      (max =? min) = false ->
      (0 <? max - min) = true
      /\ (if 0.5 <? l then 0 <? 2 - max - min else 0 <? max + min) = true)%float.
Proof.
  apply (rgbToHsl_no_division_by_zero 10 200 30); unfold inChannel; lia.
Defined.

(** ** The handler *)






(** * Further properties *)

(** ** Comparing and rounding non-negative doubles *)

Section Ordering.
Local Open Scope Z_scope.

Lemma SFscaled_pos (m : positive) (e : Z) :
  -1074 <= e -> 0 < SFscaled (S754_finite false m e).
Proof.
  intros He. cbn [SFscaled signed].
  apply Z.mul_pos_pos; [lia | apply Z.pow_pos_nonneg; lia].
Qed.

(** On zeros and positive finite doubles, comparison is comparison of the
    scaled values. *)
Lemma SFcompare_nonneg (x y : spec_float) :
  valid_binary x = true -> valid_binary y = true ->
  SFnonneg x = true -> SFnonneg y = true ->
  SFcompare x y = Some (SFscaled x ?= SFscaled y).
Proof.
  intros Vx Vy Nx Ny.
  destruct x as [sx|sx| |sx mx ex]; try discriminate;
    destruct y as [sy|sy| |sy my ey]; try discriminate.
  - reflexivity.
  - destruct sy; [discriminate|].
    pose proof (SFscaled_pos my ey (proj1 (proj1 (valid_finite _ _ _ Vy)))) as P.
    cbn [SFcompare]. f_equal. symmetry. apply Z.compare_lt_iff. exact P.
  - destruct sx; [discriminate|].
    pose proof (SFscaled_pos mx ex (proj1 (proj1 (valid_finite _ _ _ Vx)))) as P.
    cbn [SFcompare]. f_equal. symmetry. apply Z.compare_gt_iff. exact P.
  - destruct sx; [discriminate|]. destruct sy; [discriminate|].
    now apply SFcompare_scaled.
Qed.

Lemma leb_nonneg (x y : float) :
  SFnonneg (Prim2SF x) = true -> SFnonneg (Prim2SF y) = true ->
  PrimFloat.leb x y = (SFscaled (Prim2SF x) <=? SFscaled (Prim2SF y)).
Proof.
  intros Nx Ny. rewrite leb_spec. unfold SFleb.
  rewrite SFcompare_nonneg by (assumption || apply Prim2SF_valid).
  unfold Z.leb. now destruct (_ ?= _).
Qed.

Lemma ltb_nonneg (x y : float) :
  SFnonneg (Prim2SF x) = true -> SFnonneg (Prim2SF y) = true ->
  PrimFloat.ltb x y = (SFscaled (Prim2SF x) <? SFscaled (Prim2SF y)).
Proof.
  intros Nx Ny. rewrite ltb_spec. unfold SFltb.
  rewrite SFcompare_nonneg by (assumption || apply Prim2SF_valid).
  unfold Z.ltb. now destruct (_ ?= _).
Qed.

(** A double between two non-negative finite doubles is one itself. *)
Lemma between_nonneg (lo top x : float) :
  SFnonneg (Prim2SF lo) = true -> SFnonneg (Prim2SF top) = true ->
  between lo top x = true -> SFnonneg (Prim2SF x) = true.
Proof.
  intros Nlo Ntop H. unfold between in H.
  apply andb_true_iff in H as [Hlo Htop].
  rewrite leb_spec in Hlo. rewrite ltb_spec in Htop.
  destruct (Prim2SF lo) as [sl|sl| |sl ml el]; try discriminate;
    destruct (Prim2SF top) as [st|st| |st mt et]; try discriminate;
    destruct (Prim2SF x) as [s|s| |s m e]; try discriminate;
    try reflexivity;
    try (destruct s; discriminate);
    cbn [SFnonneg] in *;
    destruct sl, st, s; try discriminate; reflexivity.
Qed.

(** [Math.round] on a non-negative finite double, from its scaled value. *)
Lemma Math_round_nonneg (x : float) :
  SFnonneg (Prim2SF x) = true ->
  Math_round x
  = IInt ((2 * SFscaled (Prim2SF x) + 2 ^ 1074) / (2 * 2 ^ 1074)).
Proof.
  intros Nx. unfold Math_round.
  pose proof (Prim2SF_valid x) as V.
  destruct (Prim2SF x) as [s|s| |s m e]; try discriminate.
  - cbn [SFscaled]. apply (f_equal IInt). symmetry.
    apply Z.div_small. split; [apply Z.pow_nonneg; lia|].
    assert (0 < 2 ^ 1074) by (apply Z.pow_pos_nonneg; lia). lia.
  - destruct s; [discriminate|]. cbn [signed SFscaled]. apply (f_equal IInt).
    apply round_scaled. apply (valid_finite _ _ _ V).
Qed.

(** [Math.floor] likewise. *)
Lemma Math_floor_nonneg (x : float) :
  SFnonneg (Prim2SF x) = true ->
  Math_floor x = IInt (SFscaled (Prim2SF x) / 2 ^ 1074).
Proof.
  intros Nx. unfold Math_floor.
  pose proof (Prim2SF_valid x) as V.
  destruct (Prim2SF x) as [s|s| |s m e]; try discriminate.
  - reflexivity.
  - destruct s; [discriminate|]. cbn [signed SFscaled]. apply (f_equal IInt).
    apply floor_scaled. apply (valid_finite _ _ _ V).
Qed.

(** A double in [a - 1/2, b + 1/2) rounds to an integer in [a..b]. *)
Lemma Math_round_between (lo top x : float) (a b : Z) :
  SFnonneg (Prim2SF lo) = true -> SFnonneg (Prim2SF top) = true ->
  (2 * a - 1) * 2 ^ 1073 <= SFscaled (Prim2SF lo) ->
  SFscaled (Prim2SF top) <= (2 * b + 1) * 2 ^ 1073 ->
  between lo top x = true ->
  exists z, Math_round x = IInt z /\ a <= z <= b.
Proof.
  intros Nlo Ntop Ha Hb Hx.
  pose proof (between_nonneg lo top x Nlo Ntop Hx) as Nx.
  unfold between in Hx. apply andb_true_iff in Hx as [Hlo Htop].
  rewrite leb_nonneg in Hlo by assumption.
  rewrite ltb_nonneg in Htop by assumption.
  apply Z.leb_le in Hlo. apply Z.ltb_lt in Htop.
  rewrite (Math_round_nonneg x Nx). eexists. split; [reflexivity|].
  revert Ha Hb Hlo Htop.
  generalize (SFscaled (Prim2SF lo)) (SFscaled (Prim2SF top))
             (SFscaled (Prim2SF x)).
  change (2 ^ 1074) with (2 * 2 ^ 1073).
  generalize (2 ^ 1073) (Z.pow_pos_nonneg 2 1073 eq_refl ltac:(lia)).
  intros Q HQ L T V Ha Hb Hlo Htop. split.
  - apply Z.div_le_lower_bound; [lia|]. nia.
  - apply Z.lt_succ_r, Z.div_lt_upper_bound; [lia|]. nia.
Qed.

End Ordering.

(** ** The hex formatter outside the channel range *)

Section HexGeneral.
Local Open Scope Z_scope.

Lemma length_append (s t : string) :
  String.length (s ++ t) = (String.length s + String.length t)%nat.
Proof. induction s as [|c s IH]; cbn; [reflexivity | now rewrite IH]. Qed.

Lemma chars_append (s t : string) :
  list_ascii_of_string (s ++ t)
  = (list_ascii_of_string s ++ list_ascii_of_string t)%list.
Proof. induction s as [|c s IH]; cbn; [reflexivity | now rewrite IH]. Qed.

(** Every step of [digitsOf] puts at least one digit in front. *)
Lemma digitsOf_longer (fuel : nat) (radix : Z) :
  forall n acc,
  (String.length acc < String.length (digitsOf fuel radix n acc))%nat.
Proof.
  induction fuel as [|k IH]; intros n acc; cbn [digitsOf].
  - cbn. lia.
  - destruct (n / radix =? 0); [cbn; lia|].
    eapply Nat.lt_trans; [|apply IH]. cbn. lia.
Qed.

(** With enough fuel the digits read back as the number, whatever was read
    before amounts to zero. *)
Lemma parseDigits16_digitsOf (fuel : nat) :
  forall n acc a0,
  0 <= n < 16 ^ (Z.of_nat fuel + 1) ->
  a0 = None \/ a0 = Some 0 ->
  parseDigits16 (digitsOf fuel 16 n acc) a0 = parseDigits16 acc (Some n).
Proof.
  induction fuel as [|k IH]; intros n acc a0 Hn Ha0.
  - change (16 ^ (Z.of_nat 0 + 1)) with 16 in Hn.
    cbn [digitsOf parseDigits16].
    rewrite Z.mod_small, hexValue_digitChar by lia.
    destruct Ha0 as [-> | ->]; do 2 f_equal; lia.
  - cbn [digitsOf].
    assert (Hmod : 0 <= n mod 16 < 16) by (apply Z.mod_pos_bound; lia).
    destruct (Z.eqb_spec (n / 16) 0) as [Hq|Hq].
    + cbn [parseDigits16]. rewrite hexValue_digitChar by assumption.
      pose proof (Z.div_mod n 16 ltac:(lia)) as Hdm.
      destruct Ha0 as [-> | ->]; do 2 f_equal; lia.
    + rewrite IH; [| |assumption].
      * cbn [parseDigits16]. rewrite hexValue_digitChar by assumption.
        do 2 f_equal. pose proof (Z.div_mod n 16 ltac:(lia)). lia.
      * split; [apply Z.div_pos; lia|].
        apply Z.div_lt_upper_bound; [lia|].
        replace (Z.of_nat (S k) + 1) with (Z.succ (Z.of_nat k + 1)) in Hn by lia.
        rewrite Z.pow_succ_r in Hn by lia. lia.
Qed.

Lemma natToString_fuel (n : Z) :
  0 <= n -> n < 16 ^ (Z.of_nat (Z.to_nat (Z.log2 n)) + 1).
Proof.
  intros Hn. rewrite Z2Nat.id by apply Z.log2_nonneg.
  destruct (Z.eq_dec n 0) as [->|Hpos]; [reflexivity|].
  pose proof (Z.log2_spec n ltac:(lia)) as [_ Hlt].
  eapply Z.lt_le_trans; [exact Hlt|].
  pose proof (Z.log2_nonneg n).
  change (Z.succ (Z.log2 n)) with (Z.log2 n + 1).
  apply Z.pow_le_mono_l. lia.
Qed.

Lemma parseDigits16_natToString (n : Z) (a0 : option Z) :
  0 <= n -> a0 = None \/ a0 = Some 0 ->
  parseDigits16 (natToString 16 n) a0 = Some n.
Proof.
  intros Hn Ha0. unfold natToString.
  rewrite parseDigits16_digitsOf; [reflexivity| |assumption].
  split; [assumption | now apply natToString_fuel].
Qed.

(** What [padStart(2, "0")] does, by the length of its argument. *)
Lemma padStart_2_cases (s : string) :
  (String.length s = 0%nat /\ padStart 2 "0" s = "00"%string)
  \/ (String.length s = 1%nat /\ padStart 2 "0" s = ("0" ++ s)%string)
  \/ ((2 <= String.length s)%nat /\ padStart 2 "0" s = s).
Proof.
  destruct s as [|c [|c' rest]].
  - left. split; reflexivity.
  - right. left. split; reflexivity.
  - right. right. split; [cbn; lia | reflexivity].
Qed.

Lemma toHex_length (n : integral) : (2 <= String.length (toHex n))%nat.
Proof.
  unfold toHex.
  destruct (padStart_2_cases (Number_toString 16 n))
    as [[_ ->]|[[H ->]|[H ->]]].
  - cbn. lia.
  - rewrite length_append, H. cbn. lia.
  - exact H.
Qed.

Lemma parseInt16_toHex (n : Z) : 0 <= n -> parseInt16 (toHex n) = Some n.
Proof.
  intros Hn. unfold toHex, parseInt16, Number_toString.
  destruct (Z.ltb_spec n 0) as [|_]; [lia|].
  pose proof (digitsOf_longer (Z.to_nat (Z.log2 n)) 16 n "") as Hlen.
  fold (natToString 16 n) in Hlen.
  destruct (padStart_2_cases (natToString 16 n))
    as [[H _]|[[_ ->]|[_ ->]]].
  - cbn in Hlen. lia.
  - change (parseDigits16 ("0" ++ natToString 16 n) None)
      with (parseDigits16 (natToString 16 n) (Some 0)).
    apply parseDigits16_natToString; auto.
  - apply parseDigits16_natToString; auto.
Qed.

(** Three digits or more from 256 on. *)
Lemma natToString_long (n : Z) :
  256 <= n -> (3 <= String.length (natToString 16 n))%nat.
Proof.
  intros Hn. unfold natToString.
  assert (Hlog : 8 <= Z.log2 n) by (apply Z.log2_le_pow2; [lia | simpl; lia]).
  destruct (Z.to_nat (Z.log2 n)) as [|[|k]] eqn:Hfuel; [lia|lia|].
  cbn [digitsOf].
  assert (16 <= n / 16) by (apply Z.div_le_lower_bound; lia).
  assert (1 <= n / 16 / 16) by (apply Z.div_le_lower_bound; lia).
  destruct (Z.eqb_spec (n / 16) 0) as [|_]; [lia|].
  destruct (Z.eqb_spec (n / 16 / 16) 0) as [|_]; [lia|].
  match goal with
  | |- (_ <= String.length (digitsOf ?f ?r ?m ?acc))%nat =>
      pose proof (digitsOf_longer f r m acc) as Hlen
  end.
  cbn [String.length] in Hlen. lia.
Qed.

(** Only a channel value gives two hexadecimal digits. *)
Lemma toHex_two_digits (n : integral) :
  String.length (toHex n) = 2%nat ->
  forallb isLowerHexDigit (list_ascii_of_string (toHex n)) = true ->
  exists z : Z, n = IInt z /\ inChannel z.
Proof.
  intros Hlen Hhex. destruct n as [|s|z].
  - discriminate.
  - destruct s; discriminate.
  - exists z. split; [reflexivity|]. unfold inChannel.
    destruct (Z_lt_ge_dec z 0) as [Hneg|Hpos].
    + exfalso. revert Hhex. unfold toHex, Number_toString.
      destruct (Z.ltb_spec z 0) as [_|]; [|lia].
      pose proof (digitsOf_longer (Z.to_nat (Z.log2 (- z))) 16 (- z) "") as Hd.
      fold (natToString 16 (- z)) in Hd.
      destruct (natToString 16 (- z)) as [|c rest]; [cbn in Hd; lia|].
      discriminate.
    + destruct (Z_lt_ge_dec z 256) as [|Hbig]; [lia|exfalso].
      revert Hlen. unfold toHex, Number_toString.
      destruct (Z.ltb_spec z 0) as [|_]; [lia|].
      pose proof (natToString_long z ltac:(lia)) as Hl.
      destruct (padStart_2_cases (natToString 16 z))
        as [[H _]|[[H _]|[_ ->]]]; lia.
Qed.

End HexGeneral.

Lemma rgbToHex_channels_match (r g b : Z) :
  inChannel r -> inChannel g -> inChannel b ->
  matchesHexColor (rgbToHex r g b) = true.
Proof.
  intros Cr Cg Cb. rewrite rgbToHex_channels by assumption.
  cbn [append matchesHexColor twoDigitHex String.length Nat.eqb andb
       list_ascii_of_string].
  pose proof (twoDigitHex_matches r Cr) as Mr.
  pose proof (twoDigitHex_matches g Cg) as Mg.
  pose proof (twoDigitHex_matches b Cb) as Mb.
  cbn [twoDigitHex list_ascii_of_string forallb] in Mr, Mg, Mb |- *.
  apply andb_true_iff in Mr as [Mr1 Mr]. apply andb_true_iff in Mr as [Mr2 _].
  apply andb_true_iff in Mg as [Mg1 Mg]. apply andb_true_iff in Mg as [Mg2 _].
  apply andb_true_iff in Mb as [Mb1 Mb]. apply andb_true_iff in Mb as [Mb2 _].
  now rewrite Mr1, Mr2, Mg1, Mg2, Mb1, Mb2.
Qed.

(** X1: [rgbToHex] does not validate: its result matches
    [^#[0-9a-f]{6}$] exactly when the three arguments are channel values;
    an integer outside [0..255], a NaN or an infinity yields a string that
    does not match (it is too long or carries a minus sign). *)
Theorem rgbToHex_matches_iff (r g b : integral) :
  matchesHexColor (rgbToHex r g b) = true
  <-> exists r' g' b' : Z,
        r = IInt r' /\ g = IInt g' /\ b = IInt b'
        /\ inChannel r' /\ inChannel g' /\ inChannel b'.
Proof.
  split.
  - unfold rgbToHex. cbn [append matchesHexColor].
    intros H. apply andb_true_iff in H as [Hlen Hhex].
    apply Nat.eqb_eq in Hlen.
    rewrite !length_append in Hlen.
    rewrite !chars_append, !forallb_app in Hhex.
    apply andb_true_iff in Hhex as [Hr Hgb].
    apply andb_true_iff in Hgb as [Hg Hb].
    pose proof (toHex_length r). pose proof (toHex_length g).
    pose proof (toHex_length b).
    destruct (toHex_two_digits r ltac:(lia) Hr) as (r' & -> & Cr).
    destruct (toHex_two_digits g ltac:(lia) Hg) as (g' & -> & Cg).
    destruct (toHex_two_digits b ltac:(lia) Hb) as (b' & -> & Cb).
    exists r', g', b'. tauto.
  - intros (r' & g' & b' & -> & -> & -> & Cr & Cg & Cb).
    now apply rgbToHex_channels_match.
Qed.

(** X2: [n.toString(16).padStart(2, "0")] reads back as [n] for every
    non-negative integer, not only for channel values: [toHex] is
    injective there and always at least two characters long. *)
Theorem toHex_roundtrip (n : Z) :
  (0 <= n)%Z ->
  parseInt16 (toHex n) = Some n
  /\ (2 <= String.length (toHex n))%nat
  /\ (forall m : Z, (0 <= m)%Z -> toHex n = toHex m -> n = m).
Proof.
  intros Hn. split; [now apply parseInt16_toHex|].
  split; [apply toHex_length|].
  intros m Hm E.
  pose proof (parseInt16_toHex n Hn) as P.
  rewrite E, parseInt16_toHex in P by assumption.
  now injection P.
Qed.

Lemma toHex_roundtrip_witness :
  parseInt16 (toHex 4096) = Some 4096%Z
  /\ (2 <= String.length (toHex 4096%Z))%nat
  /\ (forall m : Z, (0 <= m)%Z -> toHex 4096 = toHex m -> 4096%Z = m).
Proof.
  apply (toHex_roundtrip 4096). lia.
Defined.

(** ** Further exhaustive checks *)

Lemma halfFacts_all : forallb halfFacts halfValues = true.
Proof. vm_compute. reflexivity. Qed.

Lemma exactFacts_all :
  forallb (fun hi => forallb (exactFacts hi) channelValues) channelValues = true.
Proof. vm_compute. reflexivity. Qed.

Lemma sectorFacts_all : forallb3 unitTable sectorFacts = true.
Proof. vm_compute. reflexivity. Qed.

Lemma pureHueFacts_all : forallb pureHueFacts brightnessValues = true.
Proof. vm_compute. reflexivity. Qed.

Lemma binEdgeFacts_all : forallb binEdgeFacts binEdges = true.
Proof. vm_compute. reflexivity. Qed.

(** ** Exact percentages *)

Section Percentages.
Local Open Scope Z_scope.

Lemma halfOf_scaled (k : Z) :
  1 <= k <= 203 ->
  SFnonneg (Prim2SF (halfOf k)) = true
  /\ SFscaled (Prim2SF (halfOf k)) = k * 2 ^ 1073.
Proof.
  intros Hk.
  assert (Hin : In k halfValues).
  { unfold halfValues. apply in_map_iff. exists (Z.to_nat k).
    split; [lia | apply in_seq; lia]. }
  pose proof (proj1 (forallb_forall _ _) halfFacts_all k Hin) as F.
  unfold halfFacts in F.
  pose proof (Prim2SF_valid (halfOf k)) as V.
  destruct (Prim2SF (halfOf k)) as [s|s| |s m e]; try discriminate.
  destruct s; [discriminate|]. destruct e as [|j|j]; try discriminate.
  apply Z.eqb_eq in F. split; [reflexivity|].
  destruct (valid_finite _ _ _ V) as ((He & _) & _).
  cbn [SFscaled signed]. rewrite F.
  assert (Hj : 1 <= Z.pos j <= 1074) by lia.
  rewrite <- Z.mul_assoc, <- Z.pow_add_r by lia.
  do 2 f_equal. lia.
Qed.

(** The doubles in the interval of [n] round to [n]. *)
Lemma Math_round_roundsTo (n : Z) (x : float) :
  0 <= n <= 101 -> roundsTo n x = true -> Math_round x = IInt n.
Proof.
  intros Hn Hx. unfold roundsTo in Hx.
  destruct (halfOf_scaled (2 * n + 1) ltac:(lia)) as [Ntop Stop].
  assert (Hlo : exists lo, between lo (halfOf (2 * n + 1)) x = true
                 /\ SFnonneg (Prim2SF lo) = true
                 /\ (2 * n - 1) * 2 ^ 1073 <= SFscaled (Prim2SF lo)).
  { destruct (Z.eqb_spec n 0) as [->|Hpos].
    - exists 0%float. split; [exact Hx|]. split; [reflexivity|].
      change (SFscaled (Prim2SF 0)) with 0.
      assert (0 < 2 ^ 1073) by (apply Z.pow_pos_nonneg; lia). lia.
    - destruct (halfOf_scaled (2 * n - 1) ltac:(lia)) as [Nlo Slo].
      exists (halfOf (2 * n - 1)). split; [exact Hx|]. split; [exact Nlo|].
      rewrite Slo. lia. }
  destruct Hlo as (lo & Hbetween & Nlo & Slo).
  destruct (Math_round_between lo (halfOf (2 * n + 1)) x n n Nlo Ntop Slo
              ltac:(rewrite Stop; lia) Hbetween) as (z & -> & Hz).
  f_equal. lia.
Qed.

End Percentages.

(** ** The converter through the largest and the smallest channel *)

Section Extremes.
Local Open Scope float_scope.

Variables r g b : Z.
Hypothesis Hr : inChannel r.
Hypothesis Hg : inChannel g.
Hypothesis Hb : inChannel b.

Let hi := maxChannel r g b.
Let lo := minChannel r g b.

(** The body of [rgbToHsl] after its two case distinctions on the order of
    the channels have been decided in the integers. *)
Lemma hslOf_channels :
  hslOf (Number_ofZ r) (Number_ofZ g) (Number_ofZ b)
  = if (hi =? lo)%Z
    then (0, 0, lightnessOf (normalise hi) (normalise lo))
    else (hueBranch (normalise r) (normalise g) (normalise b) (normalise hi)
            (normalise hi - normalise lo),
          saturationOf (normalise hi) (normalise lo),
          lightnessOf (normalise hi) (normalise lo)).
Proof.
  pose proof (maxChannel_in r g b Hr Hg Hb) as Hhi.
  pose proof (minChannel_in r g b Hr Hg Hb) as Hlo.
  unfold hslOf.
  change (Number_ofZ r / 255) with (normalise r).
  change (Number_ofZ g / 255) with (normalise g).
  change (Number_ofZ b / 255) with (normalise b).
  cbv zeta.
  rewrite Math_max_channels, Math_min_channels by assumption.
  rewrite (proj2 (orderFacts_channel _ _ Hhi Hlo)).
  fold hi lo. destruct (hi =? lo)%Z; reflexivity.
Qed.

Lemma extremes_ordered : (0 <= lo <= hi)%Z /\ (hi <= 255)%Z.
Proof. unfold hi, lo. channel. Qed.

Lemma exactFacts_channels : exactFacts hi lo = true.
Proof.
  pose proof (maxChannel_in r g b Hr Hg Hb) as Hhi.
  pose proof (minChannel_in r g b Hr Hg Hb) as Hlo.
  pose proof (proj1 (forallb_forall _ _) exactFacts_all hi
                (channelValues_In hi Hhi)) as H.
  exact (proj1 (forallb_forall _ _) H lo (channelValues_In lo Hlo)).
Qed.

(** The printed lightness is the exact percentage, rounded half up. *)
Lemma printed_lightness :
  snd (printedHsl r g b) = IInt (exactLightness hi lo).
Proof.
  pose proof extremes_ordered as [Hord Hhi].
  pose proof exactFacts_channels as F. unfold exactFacts in F.
  destruct (Z.leb_spec lo hi) as [_|]; [|lia].
  apply andb_true_iff in F as [FL _].
  apply Math_round_roundsTo in FL;
    [|unfold exactLightness; split;
      [apply Z.div_pos; lia | apply Z.lt_succ_r, Z.div_lt_upper_bound; lia]].
  unfold printedHsl, hslRounded. rewrite hslOf_channels.
  destruct (hi =? lo)%Z; exact FL.
Qed.

(** The printed saturation is the exact percentage rounded to nearest: half
    up, except that a tie may also go down. *)
Lemma printed_saturation :
  snd (fst (printedHsl r g b))
  = (if (hi =? lo)%Z then IInt 0
     else Math_round (saturationOf (normalise hi) (normalise lo) * 100))
  /\ ((lo < hi)%Z ->
      exists Sat : Z,
        snd (fst (printedHsl r g b)) = IInt Sat
        /\ (Sat = exactSaturation hi lo
            \/ saturationTie hi lo = true /\ Sat = (exactSaturation hi lo - 1)%Z)
        /\ ((lo = 0 \/ hi = 255)%Z -> Sat = 100%Z)).
Proof.
  pose proof extremes_ordered as [Hord Hhi].
  pose proof exactFacts_channels as F. unfold exactFacts in F.
  destruct (Z.leb_spec lo hi) as [_|]; [|lia].
  apply andb_true_iff in F as [_ FS].
  assert (E : snd (fst (printedHsl r g b))
              = (if (hi =? lo)%Z then IInt 0
                 else Math_round (saturationOf (normalise hi) (normalise lo) * 100))).
  { unfold printedHsl, hslRounded. rewrite hslOf_channels.
    destruct (hi =? lo)%Z; reflexivity. }
  split; [exact E|]. intros Hlt. rewrite E.
  destruct (Z.eqb_spec hi lo) as [|_]; [lia|].
  destruct (Z.ltb_spec lo hi) as [_|]; [|lia].
  apply andb_true_iff in FS as [FS Ffull].
  assert (Hdiv : (0 < satDivisor hi lo)%Z /\ (hi - lo <= satDivisor hi lo)%Z).
  { unfold satDivisor. destruct (Z.leb_spec (hi + lo) 255); lia. }
  assert (Hexact : (0 <= exactSaturation hi lo <= 100)%Z).
  { unfold exactSaturation. split.
    - apply Z.div_pos; lia.
    - apply Z.lt_succ_r, Z.div_lt_upper_bound; lia. }
  assert (Hsat : exists Sat : Z,
            Math_round (saturationOf (normalise hi) (normalise lo) * 100)
            = IInt Sat
            /\ (Sat = exactSaturation hi lo
                \/ saturationTie hi lo = true
                   /\ Sat = (exactSaturation hi lo - 1)%Z)).
  { apply orb_true_iff in FS as [FS|FS].
    - apply Math_round_roundsTo in FS; [|lia].
      exists (exactSaturation hi lo). split; [exact FS | now left].
    - apply andb_true_iff in FS as [FS Fround].
      apply andb_true_iff in FS as [Ftie Fone]. apply Z.leb_le in Fone.
      apply Math_round_roundsTo in Fround; [|lia].
      exists (exactSaturation hi lo - 1)%Z. split; [exact Fround | now right]. }
  destruct Hsat as (Sat & ES & Hcase).
  exists Sat. split; [exact ES|]. split; [exact Hcase|].
  intros Hfull.
  assert (Hcond : ((lo =? 0)%Z || (hi =? 255)%Z) = true).
  { apply orb_true_iff. destruct Hfull; [left | right]; now apply Z.eqb_eq. }
  rewrite Hcond in Ffull.
  apply Math_round_roundsTo in Ffull; [|lia].
  rewrite ES in Ffull. now injection Ffull.
Qed.

End Extremes.

(** X3: the printed lightness is [100 (max + min) / 510] rounded half up,
    exactly: the rounding errors of the doubles never change it. *)
Theorem rgbToHsl_lightness_exact (r g b : Z) :
  inChannel r -> inChannel g -> inChannel b ->
  lightOf r g b
  = IInt (exactLightness (maxChannel r g b) (minChannel r g b))
  /\ exists H Sat : integral,
       rgbToHsl r g b
       = hslString H Sat (exactLightness (maxChannel r g b) (minChannel r g b)).
Proof.
  unfold lightOf. intros Hr Hg Hb.
  pose proof (printed_lightness r g b Hr Hg Hb) as E. cbv zeta in E.
  split; [exact E|].
  destruct (printedHsl r g b) as [[H Sat] L] eqn:P. cbn [snd] in E. subst L.
  exists H, Sat. now apply rgbToHsl_printed.
Qed.

Lemma rgbToHsl_lightness_exact_witness :
  lightOf 65 15 40
  = IInt (exactLightness (maxChannel 65 15 40) (minChannel 65 15 40))
  /\ exists H Sat : integral,
       rgbToHsl 65 15 40
       = hslString H Sat
           (exactLightness (maxChannel 65 15 40) (minChannel 65 15 40)).
Proof.
  apply (rgbToHsl_lightness_exact 65 15 40); unfold inChannel; lia.
Defined.

(** X4: the printed saturation of a colour that is not gray is the exact
    percentage [100 d / divisor] rounded to nearest.  It is the half-up
    rounding unless the exact percentage is a tie, in which case the doubles
    may also round it down: (9, 7, 7) has 12.5 and prints 13, (65, 15, 15)
    has 62.5 and prints 62. *)
Theorem rgbToHsl_saturation_nearest (r g b : Z) :
  inChannel r -> inChannel g -> inChannel b ->
  (minChannel r g b < maxChannel r g b)%Z ->
  (exists Sat : Z,
     satOf r g b = IInt Sat
     /\ (Sat = exactSaturation (maxChannel r g b) (minChannel r g b)
         \/ saturationTie (maxChannel r g b) (minChannel r g b) = true
            /\ Sat = (exactSaturation (maxChannel r g b) (minChannel r g b) - 1)%Z))
  /\ (saturationTie 9 7 = true /\ exactSaturation 9 7 = 13%Z
      /\ rgbToHsl 9 7 7 = "hsl(0, 13%, 3%)"%string)
  /\ (saturationTie 65 15 = true /\ exactSaturation 65 15 = 63%Z
      /\ rgbToHsl 65 15 15 = "hsl(0, 62%, 16%)"%string).
Proof.
  unfold satOf. intros Hr Hg Hb Hlt.
  split; [|split; repeat split; vm_compute; reflexivity].
  pose proof (printed_saturation r g b Hr Hg Hb) as [_ P]. cbv zeta in P.
  destruct (P Hlt) as (Sat & E & Hcase & _).
  exists Sat. split; assumption.
Qed.

Lemma rgbToHsl_saturation_nearest_witness :
  (exists Sat : Z,
     satOf 200 100 50 = IInt Sat
     /\ (Sat = exactSaturation (maxChannel 200 100 50) (minChannel 200 100 50)
         \/ saturationTie (maxChannel 200 100 50) (minChannel 200 100 50) = true
            /\ Sat = (exactSaturation (maxChannel 200 100 50)
                                      (minChannel 200 100 50) - 1)%Z))
  /\ (saturationTie 9 7 = true /\ exactSaturation 9 7 = 13%Z
      /\ rgbToHsl 9 7 7 = "hsl(0, 13%, 3%)"%string)
  /\ (saturationTie 65 15 = true /\ exactSaturation 65 15 = 63%Z
      /\ rgbToHsl 65 15 15 = "hsl(0, 62%, 16%)"%string).
Proof.
  apply (rgbToHsl_saturation_nearest 200 100 50);
    solve [unfold inChannel; lia | vm_compute; reflexivity].
Defined.

(** X5: a colour that is not gray and has a channel at 0, or a channel at
    255, is printed with a saturation of 100. *)
Theorem rgbToHsl_full_saturation (r g b : Z) :
  inChannel r -> inChannel g -> inChannel b ->
  (minChannel r g b < maxChannel r g b)%Z ->
  (minChannel r g b = 0 \/ maxChannel r g b = 255)%Z ->
  satOf r g b = IInt 100
  /\ exists H L : integral, rgbToHsl r g b = hslString H 100%Z L.
Proof.
  unfold satOf. intros Hr Hg Hb Hlt Hfull.
  pose proof (printed_saturation r g b Hr Hg Hb) as [_ P]. cbv zeta in P.
  destruct (P Hlt) as (Sat & E & _ & Hsat).
  rewrite (Hsat Hfull) in E. split; [exact E|].
  destruct (printedHsl r g b) as [[H Sat'] L] eqn:Q. cbn [fst snd] in E.
  subst Sat'. exists H, L. now apply rgbToHsl_printed.
Qed.

Lemma rgbToHsl_full_saturation_witness :
  satOf 0 128 77 = IInt 100
  /\ exists H L : integral, rgbToHsl 0 128 77 = hslString H 100%Z L.
Proof.
  apply (rgbToHsl_full_saturation 0 128 77);
    solve [unfold inChannel; lia | vm_compute; reflexivity
          | left; vm_compute; reflexivity].
Defined.

(** X6: saturation and lightness depend on the largest and the smallest
    channel only: two colours with the same extremes print the same [S] and
    [L], in particular a colour and any reordering of its channels. *)
Theorem rgbToHsl_saturation_lightness_by_extremes (r g b r' g' b' : Z) :
  inChannel r -> inChannel g -> inChannel b ->
  inChannel r' -> inChannel g' -> inChannel b' ->
  maxChannel r g b = maxChannel r' g' b' ->
  minChannel r g b = minChannel r' g' b' ->
  satOf r g b = satOf r' g' b'
  /\ lightOf r g b = lightOf r' g' b'.
Proof.
  unfold satOf, lightOf. intros Hr Hg Hb Hr' Hg' Hb' Emax Emin.
  pose proof (printed_saturation r g b Hr Hg Hb) as [S _].
  pose proof (printed_saturation r' g' b' Hr' Hg' Hb') as [S' _].
  pose proof (printed_lightness r g b Hr Hg Hb) as L.
  pose proof (printed_lightness r' g' b' Hr' Hg' Hb') as L'.
  cbv zeta in S, S', L, L'.
  rewrite S, S', L, L', Emax, Emin. split; reflexivity.
Qed.

Lemma rgbToHsl_saturation_lightness_by_extremes_witness :
  satOf 10 200 30 = satOf 30 10 200
  /\ lightOf 10 200 30 = lightOf 30 10 200.
Proof.
  apply (rgbToHsl_saturation_lightness_by_extremes 10 200 30 30 10 200);
    solve [unfold inChannel; lia | reflexivity].
Defined.

(** ** Hue sectors *)

Section Sectors.
Local Open Scope float_scope.

Variables r g b : Z.
Hypothesis Hr : inChannel r.
Hypothesis Hg : inChannel g.
Hypothesis Hb : inChannel b.
Hypothesis Hcolour : (minChannel r g b < maxChannel r g b)%Z.

Let hi := maxChannel r g b.
Let lo := minChannel r g b.
Let degrees : float :=
  hueBranch (normalise r) (normalise g) (normalise b) (normalise hi)
    (normalise hi - normalise lo) * 360.

Lemma printed_hue : fst (fst (printedHsl r g b)) = Math_round degrees.
Proof.
  unfold printedHsl, hslRounded. rewrite hslOf_channels by assumption.
  fold hi lo. destruct (Z.eqb_spec hi lo) as [E|_]; [|reflexivity].
  unfold hi, lo in E. lia.
Qed.

Lemma sectorFacts_channels :
  (if (hi =? r)%Z then
     if (g <? b)%Z then between 299.5 360.5 degrees
     else roundsBelow 60.5 degrees
   else if (hi =? g)%Z then between 59.5 180.5 degrees
   else between 179.5 300.5 degrees) = true.
Proof.
  pose proof (maxChannel_in r g b Hr Hg Hb) as Hhi.
  pose proof (minChannel_in r g b Hr Hg Hb) as Hlo.
  pose proof (forallb3_spec unitTable sectorFacts sectorFacts_all _ _ _
                (unitTable_In r Hr) (unitTable_In g Hg) (unitTable_In b Hb))
    as F.
  unfold sectorFacts in F. cbv zeta in F.
  rewrite max3_channels, min3_channels in F by assumption.
  fold hi lo in F, Hhi, Hlo.
  rewrite (proj2 (orderFacts_channel _ _ Hhi Hlo)) in F.
  rewrite (proj2 (orderFacts_channel _ _ Hhi Hr)) in F.
  rewrite (proj2 (orderFacts_channel _ _ Hhi Hg)) in F.
  rewrite (proj1 (orderFacts_channel _ _ Hg Hb)) in F.
  destruct (Z.eqb_spec hi lo) as [E|_]; [unfold hi, lo in E; lia|].
  exact F.
Qed.

Lemma printed_hue_sector :
  exists H : Z,
    fst (fst (printedHsl r g b)) = IInt H
    /\ (if (hi =? r)%Z then
          if (g <? b)%Z then 300 <= H <= 360 else 0 <= H <= 60
        else if (hi =? g)%Z then 60 <= H <= 180
        else 180 <= H <= 300)%Z.
Proof.
  pose proof sectorFacts_channels as F. rewrite printed_hue.
  destruct (hi =? r)%Z; [destruct (g <? b)%Z|destruct (hi =? g)%Z].
  - apply (Math_round_between 299.5 360.5 degrees 300 360);
      solve [reflexivity | vm_compute; discriminate | exact F].
  - apply (Math_round_below 60.5 degrees _ _ 60 eq_refl);
      solve [vm_compute; discriminate | exact F].
  - apply (Math_round_between 59.5 180.5 degrees 60 180);
      solve [reflexivity | vm_compute; discriminate | exact F].
  - apply (Math_round_between 179.5 300.5 degrees 180 300);
      solve [reflexivity | vm_compute; discriminate | exact F].
Qed.

End Sectors.

(** X7: the printed hue of a colour that is not gray lies in the sector of
    its dominant channel, the channels being tried in the order red, green,
    blue: red largest gives [0..60] when [g >= b] and [300..360] when
    [g < b], green largest gives [60..180], blue largest gives [180..300].
    So 360 is printed only when red is largest and green is below blue. *)
Theorem rgbToHsl_hue_sector (r g b : Z) :
  inChannel r -> inChannel g -> inChannel b ->
  (minChannel r g b < maxChannel r g b)%Z ->
  exists H : Z,
    hueOf r g b = IInt H
    /\ (r = maxChannel r g b -> b <= g -> 0 <= H <= 60)%Z
    /\ (r = maxChannel r g b -> g < b -> 300 <= H <= 360)%Z
    /\ (r < maxChannel r g b -> g = maxChannel r g b -> 60 <= H <= 180)%Z
    /\ (r < maxChannel r g b -> g < maxChannel r g b -> 180 <= H <= 300)%Z
    /\ (H = 360 -> r = maxChannel r g b /\ g < b)%Z.
Proof.
  unfold hueOf. intros Hr Hg Hb Hcolour.
  destruct (printed_hue_sector r g b Hr Hg Hb Hcolour) as (H & E & Hsector).
  cbv zeta in Hsector.
  exists H. split; [exact E|].
  assert (Hmax : (r <= maxChannel r g b /\ g <= maxChannel r g b)%Z) by channel.
  destruct (Z.eqb_spec (maxChannel r g b) r) as [Er|Nr];
    [destruct (Z.ltb_spec g b) as [Hgb|Hgb]
    |destruct (Z.eqb_spec (maxChannel r g b) g) as [Eg|Ng]];
    repeat split; intros; lia.
Qed.

Lemma rgbToHsl_hue_sector_witness :
  exists H : Z,
    hueOf 10 200 30 = IInt H
    /\ (10 = maxChannel 10 200 30 -> 30 <= 200 -> 0 <= H <= 60)%Z
    /\ (10 = maxChannel 10 200 30 -> 200 < 30 -> 300 <= H <= 360)%Z
    /\ (10 < maxChannel 10 200 30 -> 200 = maxChannel 10 200 30 ->
        60 <= H <= 180)%Z
    /\ (10 < maxChannel 10 200 30 -> 200 < maxChannel 10 200 30 ->
        180 <= H <= 300)%Z
    /\ (H = 360 -> 10 = maxChannel 10 200 30 /\ 200 < 30)%Z.
Proof.
  apply (rgbToHsl_hue_sector 10 200 30);
    solve [unfold inChannel; lia | vm_compute; reflexivity].
Defined.

Lemma isInt_spec (n : Z) (i : integral) : isInt n i = true -> i = IInt n.
Proof.
  destruct i as [| |z]; try discriminate.
  cbn [isInt]. intros E. apply Z.eqb_eq in E. now subst.
Qed.

(** X8: dimming a pure colour does not move its hue: at every brightness
    [v] in [1..255] red, yellow, green, cyan, blue and magenta print 0, 60,
    120, 180, 240 and 300. *)
Theorem rgbToHsl_pure_hues (v : Z) :
  (1 <= v <= 255)%Z ->
  hueOf v 0 0 = IInt 0 /\ hueOf v v 0 = IInt 60
  /\ hueOf 0 v 0 = IInt 120 /\ hueOf 0 v v = IInt 180
  /\ hueOf 0 0 v = IInt 240 /\ hueOf v 0 v = IInt 300.
Proof.
  intros Hv.
  assert (Hin : In v brightnessValues).
  { unfold brightnessValues. apply in_map_iff. exists (Z.to_nat v).
    split; [lia | apply in_seq; lia]. }
  pose proof (proj1 (forallb_forall _ _) pureHueFacts_all v Hin) as F.
  unfold pureHueFacts in F.
  repeat (apply andb_true_iff in F as [F ?]).
  repeat split; now apply isInt_spec.
Qed.

Lemma rgbToHsl_pure_hues_witness :
  hueOf 77 0 0 = IInt 0 /\ hueOf 77 77 0 = IInt 60
  /\ hueOf 0 77 0 = IInt 120 /\ hueOf 0 77 77 = IInt 180
  /\ hueOf 0 0 77 = IInt 240 /\ hueOf 77 0 77 = IInt 300.
Proof.
  apply (rgbToHsl_pure_hues 77). lia.
Defined.

(** ** The intervals of draws behind each channel value *)

Section Bins.
Local Open Scope Z_scope.

Lemma pow_1074_split : 2 ^ 1074 = 256 * 2 ^ 1066.
Proof. change 256 with (2 ^ 8). now rewrite <- Z.pow_add_r by lia. Qed.

(** The channel of a draw is its scaled value divided by [2^1066]. *)
Lemma scaleChannel_value (u : float) :
  roundsBelow 1 u = true ->
  SFnonneg (Prim2SF u) = true
  /\ scaleChannel u = IInt (SFscaled (Prim2SF u) / 2 ^ 1066).
Proof.
  intros Hu. unfold scaleChannel, Math_floor.
  rewrite mul_spec.
  change (Prim2SF 256) with (S754_finite false 4503599627370496 (-44)).
  pose proof (Prim2SF_valid u) as V.
  destruct (roundsBelow_decode 1 u 4503599627370496 (-52) eq_refl Hu)
    as [[s Hz]|(m & e & Hf & He & Hlt)].
  - rewrite Hz. split; [reflexivity|]. cbn [SFscaled SF64mul SFmul].
    now rewrite Z.div_0_l by (apply Z.pow_nonzero; lia).
  - rewrite Hf in V |- *. split; [reflexivity|].
    change (Z.pos 4503599627370496 * 2 ^ (-52 + 1074)) with (2 ^ 1074) in Hlt.
    assert (Hneg : e < 0).
    { destruct (Z_lt_ge_dec e 0) as [|Hge]; [assumption|exfalso].
      assert (2 ^ 1074 <= 2 ^ (e + 1074)) by (apply Z.pow_le_mono_r; lia).
      assert (0 < 2 ^ 1074) by (apply Z.pow_pos_nonneg; lia).
      revert Hlt H H0. generalize (2 ^ 1074) (2 ^ (e + 1074)).
      intros P K Hlt HPK HP.
      assert (1 * K <= Z.pos m * K) by (apply Z.mul_le_mono_nonneg_r; lia).
      lia. }
    destruct (SFmul_256 m e V Hneg) as (m' & e' & Hmul & He' & Hval).
    rewrite Hmul. cbn [signed SFscaled]. apply (f_equal IInt).
    rewrite floor_scaled, Hval, pow_1074_split by assumption.
    apply Z.div_mul_cancel_l; [|lia]. apply Z.pow_nonzero; lia.
Qed.

Lemma binEdge_scaled (k : Z) :
  0 <= k <= 256 ->
  SFnonneg (Prim2SF (binEdge k)) = true
  /\ SFscaled (Prim2SF (binEdge k)) = k * 2 ^ 1066.
Proof.
  intros Hk.
  assert (Hin : In k binEdges).
  { unfold binEdges. apply in_map_iff. exists (Z.to_nat k).
    split; [lia | apply in_seq; lia]. }
  pose proof (proj1 (forallb_forall _ _) binEdgeFacts_all k Hin) as F.
  unfold binEdgeFacts in F.
  pose proof (Prim2SF_valid (binEdge k)) as V.
  destruct (Prim2SF (binEdge k)) as [s|s| |s m e]; try discriminate.
  - destruct s; [discriminate|]. apply Z.eqb_eq in F. subst k.
    split; reflexivity.
  - destruct s; [discriminate|]. destruct e as [|j|j]; try discriminate.
    apply Z.eqb_eq in F. split; [reflexivity|].
    destruct (valid_finite _ _ _ V) as ((He & _) & _).
    assert (Hj : 8 <= Z.pos j).
    { destruct (Z_lt_ge_dec (Z.pos j) 8) as [Hsmall|]; [exfalso|lia].
      rewrite Z.pow_neg_r in F by lia. lia. }
    cbn [SFscaled signed]. rewrite F.
    rewrite <- Z.mul_assoc, <- Z.pow_add_r by lia.
    do 2 f_equal. lia.
Qed.

Lemma between_binEdges (u : float) (k : Z) :
  SFnonneg (Prim2SF u) = true -> 0 <= k <= 255 ->
  between (binEdge k) (binEdge (k + 1)) u
  = ((k * 2 ^ 1066 <=? SFscaled (Prim2SF u))
     && (SFscaled (Prim2SF u) <? (k + 1) * 2 ^ 1066))%bool.
Proof.
  intros Nu Hk.
  destruct (binEdge_scaled k ltac:(lia)) as [Nk Sk].
  destruct (binEdge_scaled (k + 1) ltac:(lia)) as [Nk1 Sk1].
  unfold between. rewrite leb_nonneg, ltb_nonneg by assumption.
  now rewrite Sk, Sk1.
Qed.

End Bins.

(** X9: each channel value comes from an interval of draws of the same
    width: for a draw [u] in [0, 1), [floor (u * 256)] is [k] exactly when
    [k / 256 <= u < (k + 1) / 256]. *)
Theorem randomRGB_intervals (u : float) (k : Z) :
  roundsBelow 1 u = true -> inChannel k ->
  scaleChannel u = IInt k
  <-> between (binEdge k) (binEdge (k + 1)) u = true.
Proof.
  intros Hu Hk. unfold inChannel in Hk.
  destruct (scaleChannel_value u Hu) as [Nu ->].
  rewrite (between_binEdges u k Nu Hk).
  assert (HQ : (0 < 2 ^ 1066)%Z) by (apply Z.pow_pos_nonneg; lia).
  revert HQ. generalize (2 ^ 1066)%Z (SFscaled (Prim2SF u)). intros Q V HQ.
  rewrite andb_true_iff, Z.leb_le, Z.ltb_lt. split.
  - intros E. injection E as <-.
    pose proof (Z.mul_div_le V Q HQ).
    pose proof (Z.mul_succ_div_gt V Q HQ). lia.
  - intros [Hlo Hhi]. f_equal. symmetry.
    apply Z.div_unique with (r := (V - k * Q)%Z); lia.
Qed.

Lemma randomRGB_intervals_witness :
  scaleChannel 0.5 = IInt 128
  <-> between (binEdge 128) (binEdge (128 + 1)) 0.5 = true.
Proof.
  apply (randomRGB_intervals 0.5 128); [reflexivity | unfold inChannel; lia].
Defined.

(** X10: the channel grows with the draw: [u <= v] in [0, 1) gives
    [floor (u * 256) <= floor (v * 256)]. *)
Theorem randomRGB_monotone (u v : float) :
  roundsBelow 1 u = true -> roundsBelow 1 v = true ->
  PrimFloat.leb u v = true ->
  exists a c : Z,
    scaleChannel u = IInt a /\ scaleChannel v = IInt c /\ (a <= c)%Z.
Proof.
  intros Hu Hv Hle.
  destruct (scaleChannel_value u Hu) as [Nu ->].
  destruct (scaleChannel_value v Hv) as [Nv ->].
  rewrite leb_nonneg in Hle by assumption. apply Z.leb_le in Hle.
  do 2 eexists. split; [reflexivity|]. split; [reflexivity|].
  apply Z.div_le_mono; [apply Z.pow_pos_nonneg; lia | exact Hle].
Qed.

Lemma randomRGB_monotone_witness :
  exists a c : Z,
    scaleChannel 0.25 = IInt a /\ scaleChannel 0.75 = IInt c /\ (a <= c)%Z.
Proof.
  apply (randomRGB_monotone 0.25 0.75); reflexivity.
Defined.

(** ** A whole request *)



(** ** A channel that is not a number *)

Section NotANumber.
Local Open Scope float_scope.

Lemma is_nan_eq (x : float) : is_nan x = true -> x = nan.
Proof.
  intros H. apply Prim2SF_inj. unfold Prim2SF. now rewrite H.
Qed.

Lemma div_nan_r (x : float) : x / nan = nan.
Proof.
  apply Prim2SF_inj. rewrite div_spec.
  change (Prim2SF nan) with S754_nan.
  unfold SF64div, SFdiv. now destruct (Prim2SF x).
Qed.

Lemma eqb_nan_l (x : float) : (nan =? x) = false.
Proof.
  rewrite eqb_spec. change (Prim2SF nan) with S754_nan. reflexivity.
Qed.

(** As soon as one normalised channel is a NaN, so are [max], [min] and
    with them [h], [s] and [l]. *)
Lemma hslOf_nan (r g b : float) :
  is_nan r = true \/ is_nan g = true \/ is_nan b = true ->
  hslOf r g b = (nan, nan, nan).
Proof.
  intros H. unfold hslOf. cbv zeta.
  assert (Hany : existsb is_nan [r / 255; g / 255; b / 255] = true).
  { cbn [existsb].
    destruct H as [H|[H|H]]; apply is_nan_eq in H; subst;
      change (is_nan (nan / 255)) with true;
      now rewrite ?orb_true_r. }
  unfold Math_max, Math_min. rewrite Hany.
  change (nan =? nan) with false. cbn [negb].
  rewrite !eqb_nan_l.
  change (nan - nan) with nan. rewrite div_nan_r.
  reflexivity.
Qed.

End NotANumber.

(** X12: [rgbToHsl] does not validate either: a NaN in any of the three
    positions, whatever the other two arguments, yields
    [hsl(NaN, NaN%, NaN%)]. *)
Theorem rgbToHsl_nan (r g b : integral) :
  r = INaN \/ g = INaN \/ b = INaN ->
  rgbToHsl r g b = "hsl(NaN, NaN%, NaN%)"%string.
Proof.
  intros H. unfold rgbToHsl, hslRounded.
  rewrite hslOf_nan; [reflexivity|].
  destruct H as [-> | [-> | ->]]; [left | right; left | right; right];
    reflexivity.
Qed.

Lemma rgbToHsl_nan_witness :
  rgbToHsl 12 INaN (IInf false) = "hsl(NaN, NaN%, NaN%)"%string.
Proof.
  apply (rgbToHsl_nan 12 INaN (IInf false)). right. left. reflexivity.
Defined.
